(** * lfring: pointer tagging, slot atomics, RDCSS and capacity rounding

    A shallow embedding of the atomic coordination core of the [lfring]
    package (files [base.go] and the atomics source).  Pointers, [uintptr]
    and [uint] values are integers of the native width, [uint64] values are
    integers below [2^64]; wrap-around is written out where the source
    relies on it.  Memory is a finite map from addresses to pointer-sized
    words, next to a store of the heap-allocated RDCSS descriptors. *)

From Stdlib Require Import ZArith Lia Bool List String.
From stdpp Require Import base option gmap.
Import ListNotations.

Local Open Scope Z_scope.

(** ** Architecture configuration ([base.go], "Defaults") *)

Inductive arch := Arch32 | Arch64.

(** Width of [uintptr] (and of [uint] and of a pointer). *)
Definition uintptr_bits (A : arch) : Z :=
  match A with Arch32 => 32 | Arch64 => 64 end.

Definition uintptr_mod (A : arch) : Z := 2 ^ uintptr_bits A.

(** Conversion to [uintptr]: reduction modulo the width. *)
Definition to_uintptr (A : arch) (z : Z) : Z := z mod uintptr_mod A.

(** [^uintptr(x)]: bitwise complement inside the width. *)
Definition uintptr_not (A : arch) (x : Z) : Z :=
  Z.lxor (uintptr_mod A - 1) (to_uintptr A x).

(** [archADDRSIZE = 32 << uintptr(^uintptr(0)>>63)] *)
Definition archADDRSIZE (A : arch) : Z :=
  Z.shiftl 32 (Z.shiftr (uintptr_not A 0) 63).

(** [archWORDSIZE = archADDRSIZE >> 3] *)
Definition archWORDSIZE (A : arch) : Z := Z.shiftr (archADDRSIZE A) 3.

(** [archMAXTAG = archWORDSIZE - 1] *)
Definition archMAXTAG (A : arch) : Z := archWORDSIZE A - 1.

(** [archPTRMASK = ^uintptr((archADDRSIZE >> 5) + 1)] *)
Definition archPTRMASK (A : arch) : Z :=
  uintptr_not A (Z.shiftr (archADDRSIZE A) 5 + 1).

(** [archPTRSIZE = unsafe.Sizeof(_PTR_)] *)
Definition archPTRSIZE (A : arch) : Z := uintptr_bits A / 8.

(** [ui64NMASK = ^uint64(0)] *)
Definition ui64NMASK : Z := 2 ^ 64 - 1.

Definition cRDSCHDTHRESHOLD : Z := 1000.
Definition cWRSCHDTHRESHOLD : Z := 1000.

(** The package's error values. *)
Inductive error := EPTRINVAL | EPTRINVALT.

(** The [nil] pointer. *)
Definition nil_ptr : Z := 0.

(** ** Outcomes of a call

    A call returns normally, panics with an error value, or faults on an
    address that is not mapped. *)

Inductive outcome (X : Type) : Type :=
| Ok (x : X)
| Panic (e : error)
| Fault.
Arguments Ok {X} x.
Arguments Panic {X} e.
Arguments Fault {X}.

(** ** Pointer tagging *)

(** [GetTag]: [uint(uintptr(ptr) & uintptr(archMAXTAG))] *)
Definition GetTag (A : arch) (ptr : Z) : Z := Z.land ptr (archMAXTAG A).

(** [TaggedPointer]: panics with [EPTRINVALT] when [tag > archMAXTAG],
    otherwise returns [uintptr(ptr) | uintptr(tag)] and a [nil] error. *)
Definition TaggedPointer (A : arch) (ptr tag : Z) : outcome (Z * option error) :=
  if archMAXTAG A <? tag then Panic EPTRINVALT
  else Ok (Z.lor ptr tag, None).

(** [Untag]: [uintptr(ptr) & archPTRMASK] *)
Definition Untag (A : arch) (ptr : Z) : Z := Z.land ptr (archPTRMASK A).

(** [HasTag]: [GetTag(ptr)&archMAXTAG > 0] *)
Definition HasTag (A : arch) (ptr : Z) : bool :=
  0 <? Z.land (GetTag A ptr) (archMAXTAG A).

(** [IsRDCSSDescriptor] *)
Definition IsRDCSSDescriptor (A : arch) (addr : Z) : bool := HasTag A addr.

(** A pointer value of the architecture. *)
Definition is_ptr (A : arch) (p : Z) : Prop := 0 <= p < uintptr_mod A.

(** Natural alignment: a multiple of the word size, so that the low-order
    tag bits (those of [archMAXTAG]) are zero. *)
Definition aligned (A : arch) (p : Z) : Prop := p mod archWORDSIZE A = 0.

(** ** Capacity rounding *)

Definition u64 (z : Z) : Z := z mod 2 ^ 64.

(** One line [v |= v >> k] of [roundP2]. *)
Definition smear (k v : Z) : Z := Z.lor v (Z.shiftr v k).

(** [roundP2], statement by statement. *)
Definition roundP2 (v : Z) : Z :=
  let v := u64 (v - 1) in
  let v := smear 1 v in
  let v := smear 2 v in
  let v := smear 4 v in
  let v := smear 8 v in
  let v := smear 16 v in
  let v := smear 32 v in
  u64 (v + 1).

(** The six lines [v |= v >> k] of [roundP2] together. *)
Definition smear_all (x : Z) : Z :=
  smear 32 (smear 16 (smear 8 (smear 4 (smear 2 (smear 1 x))))).

(** [y] has bit [i] set exactly when [x] has one of the [m] bits from [i]
    upwards set. *)
Definition covers (m x y : Z) : Prop :=
  forall i, 0 <= i ->
    Z.testbit y i = true <-> exists j, 0 <= j < m /\ Z.testbit x (i + j) = true.

(** [v] is a power of two. *)
Definition is_pow2 (v : Z) : Prop := exists k, 0 <= k /\ v = 2 ^ k.

(** The rounding contract in the words of the specification: a power of two
    is returned unchanged, anything else is sent to the next power of two
    greater than it. *)
Definition roundP2_spec (v : Z) : Prop :=
  (is_pow2 v -> roundP2 v = v) /\
  (~ is_pow2 v ->
   is_pow2 (roundP2 v) /\ v < roundP2 v /\
   forall p, is_pow2 p -> v < p -> roundP2 v <= p).

(** ** Memory

    [words] maps an address to the pointer-sized word stored there;
    [descs] holds the [rdcssDescriptor] objects of the heap by address;
    [logs] collects the lines written through [log.Println]. *)

Record rdcssDescriptor := mkDesc {
  a1 : Z;  (* control address *)
  o1 : Z;  (* expected value *)
  a2 : Z;  (* data address *)
  o2 : Z;  (* old value *)
  n  : Z;  (* new value *)
}.

Record mem := mkMem {
  words : gmap Z Z;
  descs : gmap Z rdcssDescriptor;
  logs  : list string;
}.

Definition set_word (a v : Z) (h : mem) : mem :=
  mkMem (<[a := v]> (words h)) (descs h) (logs h).

Definition set_desc (d : Z) (D : rdcssDescriptor) (h : mem) : mem :=
  mkMem (words h) (<[d := D]> (descs h)) (logs h).

Definition add_log (s : string) (h : mem) : mem :=
  mkMem (words h) (descs h) (logs h ++ [s]).

(** Computations over the memory. *)
Definition M (X : Type) : Type := mem -> outcome (X * mem).

Definition ret {X} (x : X) : M X := fun h => Ok (x, h).

Definition bind {X Y} (m : M X) (k : X -> M Y) : M Y :=
  fun h =>
    match m h with
    | Ok (x, h') => k x h'
    | Panic e => Panic e
    | Fault => Fault
    end.

(** A call that touches no memory. *)
Definition lift {X} (o : outcome X) : M X :=
  fun h =>
    match o with
    | Ok x => Ok (x, h)
    | Panic e => Panic e
    | Fault => Fault
    end.

Declare Scope go_scope.
Delimit Scope go_scope with go.
Notation "x <- m ;; k" := (bind m (fun x => k))
  (at level 100, m at next level, right associativity) : go_scope.
Notation "m ;;; k" := (bind m (fun _ => k))
  (at level 100, right associativity) : go_scope.
Local Open Scope go_scope.

(** Reading the word at an address ([*p], [atomic.LoadPointer]). *)
Definition LoadPointer (addr : Z) : M Z :=
  fun h =>
    match words h !! addr with
    | Some v => Ok (v, h)
    | None => Fault
    end.

(** [atomic.CompareAndSwapPointer(addr, old, new)] *)
Definition CompareAndSwapPointer (addr old new : Z) : M bool :=
  fun h =>
    match words h !! addr with
    | Some v => if v =? old then Ok (true, set_word addr new h)
                else Ok (false, h)
    | None => Fault
    end.

(** [log.Println] *)
Definition Println (s : string) : M unit := fun h => Ok (tt, add_log s h).

(** [&rdcssDescriptor{...}]: the allocator places the object at [d]. *)
Definition new_descriptor (d : Z) (D : rdcssDescriptor) : M Z :=
  fun h => Ok (d, set_desc d D h).

(** Dereferencing a [*rdcssDescriptor]. *)
Definition deref (p : Z) : M rdcssDescriptor :=
  fun h =>
    match descs h !! p with
    | Some D => Ok (D, h)
    | None => Fault
    end.

(** ** Slot atomics *)

(** The address [base + (ptrsize * uintptr(index))] of a slot, in [uintptr]
    arithmetic. *)
Definition slot_address (A : arch) (base index ptrsize : Z) : Z :=
  to_uintptr A (base + to_uintptr A (ptrsize * to_uintptr A index)).

(** Address of slot [index]: the word read at [addr] (the data pointer,
    first word of the slice header [addr] points to) plus
    [ptrsize * uintptr(index)], in [uintptr] arithmetic. *)
Definition OffsetSliceSlot (A : arch) (addr index ptrsize : Z) : M Z :=
  base <- LoadPointer addr ;;
  ret (slot_address A base index ptrsize).

(** [CASSliceSlot(addr, data, target, index, ptrsize)]: the call of
    [atomic.CompareAndSwapPointer] passes [target] in the position of the
    old value and [data] in the position of the new value. *)
Definition CASSliceSlot (A : arch) (addr data target index ptrsize : Z) : M bool :=
  base <- LoadPointer addr ;;
  let tptr := slot_address A base index ptrsize in
  let cptr := tptr in
  CompareAndSwapPointer cptr target data.

(** [SetSliceSlot(addr, index, ptrsize, d)] *)
Definition SetSliceSlot (A : arch) (addr index ptrsize d : Z) : M bool :=
  CASSliceSlot A addr d nil_ptr index ptrsize.

(** ** RDCSS *)

(** [RDCSSComplete(d)] *)
Definition RDCSSComplete (A : arch) (d : Z) : M bool :=
  let dptr := d in
  tg <- lift (TaggedPointer A dptr 1) ;;
  let tgdptr := fst tg in
  desc <- deref (Untag A dptr) ;;
  c <- LoadPointer (a1 desc) ;;
  committed <- (if c =? o1 desc
                then CompareAndSwapPointer (a2 desc) tgdptr (n desc)
                else ret false) ;;
  if (committed : bool) then ret true
  else
    restored <- CompareAndSwapPointer (a2 desc) tgdptr (o2 desc) ;;
    (if (restored : bool) then ret tt
     else Println "[-] restoration failed.") ;;;
    ret false.

(** First stage of [RDCSS]: allocate the descriptor (at [d]), tag its
    address with [0x1] and try to swap it into [a2] against [o2]. *)
Definition RDCSS_install (A : arch) (d : Z) (a1 o1 a2 o2 n : Z) : M bool :=
  desc <- new_descriptor d (mkDesc a1 o1 a2 o2 n) ;;
  tg <- lift (TaggedPointer A desc 1) ;;
  let dptr := fst tg in
  D <- deref desc ;;
  let '(mkDesc _ _ desc_a2 desc_o2 _) := D in
  CompareAndSwapPointer desc_a2 desc_o2 dptr.

(** [RDCSS(a1, o1, a2, o2, n)]; [d] is the address the allocator gives to
    the descriptor of this call. *)
Definition RDCSS (A : arch) (d : Z) (a1 o1 a2 o2 n : Z) : M bool :=
  installed <- RDCSS_install A d a1 o1 a2 o2 n ;;
  if (installed : bool) then RDCSSComplete A d else ret false.

(** ** Two racing invocations of RDCSS

    Between its atomic operations a thread can be preempted.  A thread that
    runs [RDCSS] is at one of these points: before the install swap, before
    the read of the control address, before the commit swap, before the
    rollback swap, or returned. *)

Inductive pc := PInstall | PReadControl | PCommit | PRollback | PDone (r : bool).

Record thread := mkThread {
  t_desc : Z;                (* address of the descriptor of the call *)
  t_args : rdcssDescriptor;  (* the arguments a1, o1, a2, o2, n of the call *)
  t_pc   : pc;
}.

Definition at_pc (t : thread) (p : pc) : thread :=
  mkThread (t_desc t) (t_args t) p.

(** One atomic operation of the thread, with the code around it. *)
Definition thread_step (A : arch) (t : thread) : M thread :=
  let d := t_desc t in
  match t_pc t with
  | PInstall =>
      let '(mkDesc c_a1 c_o1 c_a2 c_o2 c_n) := t_args t in
      installed <- RDCSS_install A d c_a1 c_o1 c_a2 c_o2 c_n ;;
      ret (at_pc t (if (installed : bool) then PReadControl else PDone false))
  | PReadControl =>
      tg <- lift (TaggedPointer A d 1) ;;
      desc <- deref (Untag A d) ;;
      c <- LoadPointer (a1 desc) ;;
      ret (at_pc t (if c =? o1 desc then PCommit else PRollback))
  | PCommit =>
      tg <- lift (TaggedPointer A d 1) ;;
      desc <- deref (Untag A d) ;;
      committed <- CompareAndSwapPointer (a2 desc) (fst tg) (n desc) ;;
      ret (at_pc t (if (committed : bool) then PDone true else PRollback))
  | PRollback =>
      tg <- lift (TaggedPointer A d 1) ;;
      desc <- deref (Untag A d) ;;
      restored <- CompareAndSwapPointer (a2 desc) (fst tg) (o2 desc) ;;
      (if (restored : bool) then ret tt
       else Println "[-] restoration failed.") ;;;
      ret (at_pc t (PDone false))
  | PDone _ => ret t
  end.

(** A thread running without interruption. *)
Definition run_alone (A : arch) (t : thread) : M pc :=
  t <- thread_step A t ;;
  t <- thread_step A t ;;
  t <- thread_step A t ;;
  t <- thread_step A t ;;
  ret (t_pc t).

Inductive tid := T1 | T2.

(** The scheduler lets thread [i] perform its next atomic operation. *)
Definition sys_step (A : arch) (i : tid) (s : thread * thread) : M (thread * thread) :=
  match i with
  | T1 => t <- thread_step A (fst s) ;; ret (t, snd s)
  | T2 => t <- thread_step A (snd s) ;; ret (fst s, t)
  end.

Fixpoint run (A : arch) (sched : list tid) (s : thread * thread) : M (thread * thread) :=
  match sched with
  | [] => ret s
  | i :: rest => s' <- sys_step A i s ;; run A rest s'
  end.

Definition finished (t : thread) : Prop := exists r, t_pc t = PDone r.

(** The first thread committed, the second did not, and the data address
    holds the first thread's new value. *)
Definition sole_winner (t u : thread) (h : mem) : Prop :=
  t_pc t = PDone true /\ t_pc u = PDone false /\
  words h !! a2 (t_args t) = Some (n (t_args t)).

(** Exactly one of the two operations committed and the data address holds
    that operation's new value. *)
Definition exactly_one_committed (s : thread * thread) (h : mem) : Prop :=
  sole_winner (fst s) (snd s) h \/ sole_winner (snd s) (fst s) h.

(** Two calls racing on the same control and data addresses with the same
    expected values, which the memory holds. *)
Definition racing (h : mem) (s : thread * thread) : Prop :=
  let D := t_args (fst s) in
  let E := t_args (snd s) in
  t_pc (fst s) = PInstall /\ t_pc (snd s) = PInstall /\
  a1 D = a1 E /\ o1 D = o1 E /\ a2 D = a2 E /\ o2 D = o2 E /\
  words h !! a1 D = Some (o1 D) /\ words h !! a2 D = Some (o2 D).

(** The number of atomic operations a thread at [p] still has to perform
    when every swap of it succeeds. *)
Definition remaining (p : pc) : nat :=
  match p with
  | PInstall => 3
  | PReadControl => 2
  | PCommit => 1
  | PRollback => 1
  | PDone _ => 0
  end.

(** How often the schedule runs thread [i]. *)
Fixpoint steps_of (i : tid) (sched : list tid) : nat :=
  match sched with
  | [] => 0
  | j :: rest =>
      match i, j with
      | T1, T1 | T2, T2 => S (steps_of i rest)
      | _, _ => steps_of i rest
      end
  end.

(** The descriptor of the call is a naturally aligned object of the heap,
    freshly allocated: the expected old value of the call is not its tagged
    address. *)
Definition fresh_descriptor (A : arch) (t : thread) : Prop :=
  is_ptr A (t_desc t) /\ aligned A (t_desc t) /\
  o2 (t_args t) <> Z.lor (t_desc t) 1.

(** The setting of the race: two calls on the same distinct control and
    data addresses with the expected values the memory holds, each with a
    descriptor of its own. *)
Definition race_setup (A : arch) (h : mem) (s : thread * thread) : Prop :=
  racing h s /\
  a1 (t_args (fst s)) <> a2 (t_args (fst s)) /\
  fresh_descriptor A (fst s) /\ fresh_descriptor A (snd s) /\
  t_desc (fst s) <> t_desc (snd s).

(** The outcome promised for a schedule: the two calls run without a fault
    and, once both have returned, exactly one of them has committed. *)
Definition race_outcome (A : arch) (h : mem) (s : thread * thread)
    (sched : list tid) : Prop :=
  exists s' h',
    run A sched s h = Ok (s', h') /\
    (finished (fst s') -> finished (snd s') -> exactly_one_committed s' h').

(** One call has installed its descriptor ([p] is its program point, [d]
    and [D] its descriptor) and the other, at [q], has not and will not:
    the data address holds the tagged descriptor until the commit, and the
    new value afterwards. *)
Definition ahead (d : Z) (D : rdcssDescriptor) (p q : pc) (h : mem) : Prop :=
  (q = PInstall \/ q = PDone false) /\
  (((p = PReadControl \/ p = PCommit) /\
    descs h !! d = Some D /\ words h !! a2 D = Some (Z.lor d 1)) \/
   (p = PDone true /\ words h !! a2 D = Some (n D))).

(** The states a race between the calls [(d1, D1)] and [(d2, D2)] passes
    through. *)
Definition race_inv (d1 d2 : Z) (D1 D2 : rdcssDescriptor)
    (s : thread * thread) (h : mem) : Prop :=
  t_desc (fst s) = d1 /\ t_args (fst s) = D1 /\
  t_desc (snd s) = d2 /\ t_args (snd s) = D2 /\
  words h !! a1 D1 = Some (o1 D1) /\
  ((t_pc (fst s) = PInstall /\ t_pc (snd s) = PInstall /\
    words h !! a2 D1 = Some (o2 D1)) \/
   ahead d1 D1 (t_pc (fst s)) (t_pc (snd s)) h \/
   ahead d2 D2 (t_pc (snd s)) (t_pc (fst s)) h).

(** One call has installed its descriptor while the control word does not
    hold the expected value: it is about to read the control word or to
    roll back, and the other call, at [q], has not installed. *)
Definition stale_busy (d : Z) (D : rdcssDescriptor) (p q : pc) (h : mem) : Prop :=
  (q = PInstall \/ q = PDone false) /\
  (p = PReadControl \/ p = PRollback) /\
  descs h !! d = Some D /\ words h !! a2 D = Some (Z.lor d 1).

(** The states a race passes through when the control word holds [c], not
    the expected value: no descriptor installed and the data word at its
    expected value, or one of the calls between install and rollback. *)
Definition stale_inv (d1 d2 : Z) (D1 D2 : rdcssDescriptor) (c : Z)
    (L : list string) (s : thread * thread) (h : mem) : Prop :=
  t_desc (fst s) = d1 /\ t_args (fst s) = D1 /\
  t_desc (snd s) = d2 /\ t_args (snd s) = D2 /\
  words h !! a1 D1 = Some c /\ logs h = L /\
  (((t_pc (fst s) = PInstall \/ t_pc (fst s) = PDone false) /\
    (t_pc (snd s) = PInstall \/ t_pc (snd s) = PDone false) /\
    words h !! a2 D1 = Some (o2 D1)) \/
   stale_busy d1 D1 (t_pc (fst s)) (t_pc (snd s)) h \/
   stale_busy d2 D2 (t_pc (snd s)) (t_pc (fst s)) h).

(** Two calls racing on the same distinct control and data addresses with
    the same expected values, where the data word holds the expected value
    but the control word holds [c]. *)
Definition stale_setup (A : arch) (h : mem) (s : thread * thread) (c : Z) : Prop :=
  let D := t_args (fst s) in
  let E := t_args (snd s) in
  t_pc (fst s) = PInstall /\ t_pc (snd s) = PInstall /\
  a1 D = a1 E /\ o1 D = o1 E /\ a2 D = a2 E /\ o2 D = o2 E /\
  words h !! a1 D = Some c /\ c <> o1 D /\
  words h !! a2 D = Some (o2 D) /\
  a1 D <> a2 D /\
  fresh_descriptor A (fst s) /\ fresh_descriptor A (snd s) /\
  t_desc (fst s) <> t_desc (snd s).

(** ** Sanity checks of the constants *)

Example arch_constants_64 :
  (archADDRSIZE Arch64, archWORDSIZE Arch64, archMAXTAG Arch64,
   archPTRMASK Arch64, archPTRSIZE Arch64)
  = (64, 8, 7, 2 ^ 64 - 4, 8).
Proof. vm_compute. reflexivity. Qed.

Example arch_constants_32 :
  (archADDRSIZE Arch32, archWORDSIZE Arch32, archMAXTAG Arch32,
   archPTRMASK Arch32, archPTRSIZE Arch32)
  = (32, 4, 3, 2 ^ 32 - 3, 4).
Proof. vm_compute. reflexivity. Qed.

Example roundP2_samples :
  (roundP2 5, roundP2 17, roundP2 1, roundP2 8, roundP2 0, roundP2 (2 ^ 63 + 1))
  = (8, 32, 1, 8, 0, 0).
Proof. vm_compute. reflexivity. Qed.

(** ** Pointer tagging: results *)

Lemma archMAXTAG_ones (A : arch) : archMAXTAG A = Z.ones (Z.log2 (archWORDSIZE A)).
Proof. destruct A; vm_compute; reflexivity. Qed.

Lemma archWORDSIZE_pow2 (A : arch) : archWORDSIZE A = 2 ^ Z.log2 (archWORDSIZE A).
Proof. destruct A; vm_compute; reflexivity. Qed.

(** X1: the tag comes back out of a tagged aligned address: for a
    naturally aligned [a] and a tag [t] within [0, archMAXTAG],
    [GetTag] of [TaggedPointer a t] is [t]. *)
Lemma GetTag_TaggedPointer (A : arch) (a t : Z) :
  aligned A a -> 0 <= t <= archMAXTAG A ->
  exists p, TaggedPointer A a t = Ok (p, None) /\ GetTag A p = t.
Proof.
  intros Ha Ht. unfold TaggedPointer.
  destruct (Z.ltb_spec (archMAXTAG A) t) as [Hlt|_]; [lia|].
  eexists; split; [reflexivity|].
  unfold GetTag, aligned in *.
  rewrite Z.land_lor_distr_l, archMAXTAG_ones, !Z.land_ones by (destruct A; vm_compute; congruence).
  rewrite <- archWORDSIZE_pow2, Ha, Z.lor_0_l.
  apply Z.mod_small. destruct A.
  - change (0 <= t <= 3) in Ht. change (0 <= t < 4). lia.
  - change (0 <= t <= 7) in Ht. change (0 <= t < 8). lia.
Qed.

(** C4, on the code: for either architecture there is a naturally aligned
    address and a tag within [0, archMAXTAG] for which [TaggedPointer]
    returns a pointer that [Untag] does not send back to the address:
    [archPTRMASK] complements the number of tag bits, not the tag bits. *)
Theorem Untag_TaggedPointer_mismatch (A : arch) :
  exists a t p,
    is_ptr A a /\ aligned A a /\ 0 <= t <= archMAXTAG A /\
    TaggedPointer A a t = Ok (p, None) /\ GetTag A p = t /\ Untag A p <> a.
Proof.
  destruct A.
  - exists 4, 1, 5. vm_compute. repeat split; congruence.
  - exists 8, 4, 12. vm_compute. repeat split; congruence.
Qed.

(** C5, on the code: for either architecture some pointer still carries a
    tag after [Untag]. *)
Theorem HasTag_Untag_leftover (A : arch) :
  exists p, is_ptr A p /\ HasTag A (Untag A p) = true.
Proof.
  destruct A.
  - exists 1. vm_compute. repeat split; congruence.
  - exists 4. vm_compute. repeat split; congruence.
Qed.

(** C6: for every pointer [a] and every tag [t] greater than [archMAXTAG],
    [TaggedPointer a t] panics with the invalid-tag error and returns no
    pointer. *)
Theorem TaggedPointer_invalid_tag (A : arch) (a t : Z) :
  archMAXTAG A < t ->
  TaggedPointer A a t = Panic EPTRINVALT /\
  forall r, TaggedPointer A a t <> Ok r.
Proof.
  intros Ht. unfold TaggedPointer.
  destruct (Z.ltb_spec (archMAXTAG A) t) as [_|Hle]; [|lia].
  split; [reflexivity | discriminate].
Qed.

Lemma TaggedPointer_invalid_tag_witness :
  archMAXTAG Arch64 < 8 /\
  TaggedPointer Arch64 4096 8 = Panic EPTRINVALT /\
  forall r, TaggedPointer Arch64 4096 8 <> Ok r.
Proof.
  split; [reflexivity|].
  apply (TaggedPointer_invalid_tag Arch64 4096 8). reflexivity.
Defined.

(** ** Capacity rounding: results *)

Section Smear.

Lemma testbit_smear (k v i : Z) :
    0 <= k -> 0 <= i ->
    Z.testbit (smear k v) i = Z.testbit v i || Z.testbit v (i + k).
  Proof.
    intros Hk Hi. unfold smear. now rewrite Z.lor_spec, Z.shiftr_spec by lia.
  Qed.

Lemma covers_start (x : Z) : covers 1 x x.
  Proof.
    intros i Hi; split.
    - intros H. exists 0. rewrite Z.add_0_r. split; [lia | exact H].
    - intros (j & Hj & H). replace (i + j) with i in H by lia. exact H.
  Qed.

Lemma covers_smear (m x y : Z) :
    0 < m -> covers m x y -> covers (2 * m) x (smear m y).
  Proof.
    intros Hm Hc i Hi. rewrite testbit_smear, orb_true_iff by lia. split.
    - intros [H|H].
      + apply Hc in H as (j & Hj & H); [|lia]. exists j. split; [lia | exact H].
      + apply Hc in H as (j & Hj & H); [|lia]. exists (m + j).
        split; [lia|]. now rewrite Z.add_assoc.
    - intros (j & Hj & H). destruct (Z.lt_ge_cases j m) as [Hlt|Hge].
      + left. apply Hc; [lia|]. exists j. split; [lia | exact H].
      + right. apply Hc; [lia|]. exists (j - m). split; [lia|].
        now replace (i + m + (j - m)) with (i + j) by lia.
  Qed.

Lemma covers_smear_all (x : Z) : covers 64 x (smear_all x).
  Proof.
    unfold smear_all.
    apply (covers_smear 32), (covers_smear 16), (covers_smear 8),
      (covers_smear 4), (covers_smear 2), (covers_smear 1), covers_start; lia.
  Qed.

Lemma smear_all_ones (x : Z) :
    0 < x < 2 ^ 64 -> smear_all x = Z.ones (Z.log2 x + 1).
  Proof.
    intros Hx.
    assert (HL : 0 <= Z.log2 x < 64).
    { split; [apply Z.log2_nonneg|]. apply Z.log2_lt_pow2; lia. }
    apply Z.bits_inj'. intros i Hi.
    destruct (Z.le_gt_cases i (Z.log2 x)) as [Hle|Hgt].
    - rewrite Z.ones_spec_low by lia.
      apply (covers_smear_all x); [lia|].
      exists (Z.log2 x - i). split; [lia|].
      replace (i + (Z.log2 x - i)) with (Z.log2 x) by lia.
      apply Z.bit_log2. lia.
    - rewrite Z.ones_spec_high by lia.
      apply not_true_is_false. intros H.
      apply (covers_smear_all x) in H as (j & Hj & H); [|lia].
      rewrite Z.bits_above_log2 in H by lia. discriminate.
  Qed.

End Smear.

Lemma roundP2_unfold (v : Z) : roundP2 v = u64 (smear_all (u64 (v - 1)) + 1).
Proof. reflexivity. Qed.

(** Above [2^63], and at [0], the increment wraps to [0]. *)
Lemma roundP2_wraps (v : Z) :
  v = 0 \/ 2 ^ 63 < v <= 2 ^ 64 -> roundP2 v = 0.
Proof.
  intros Hv. rewrite roundP2_unfold.
  set (x := u64 (v - 1)).
  assert (Hx : 2 ^ 63 <= x < 2 ^ 64).
  { unfold x, u64. destruct Hv as [->|Hv]; [vm_compute; split; congruence|].
    rewrite Z.mod_small; lia. }
  rewrite smear_all_ones by lia.
  assert (HL : Z.log2 x = 63).
  { apply Z.log2_unique; [lia|]. exact Hx. }
  rewrite HL. reflexivity.
Qed.

(** In between, the result is [2 ^ log2_up v]. *)
Lemma roundP2_log2_up (v : Z) :
  1 <= v <= 2 ^ 63 -> roundP2 v = 2 ^ Z.log2_up v.
Proof.
  intros Hv. rewrite roundP2_unfold.
  destruct (Z.eq_dec v 1) as [->|Hne]; [reflexivity|].
  assert (Hx : u64 (v - 1) = v - 1) by (unfold u64; apply Z.mod_small; lia).
  rewrite Hx, smear_all_ones by lia.
  assert (HL : 0 <= Z.log2 (v - 1) < 63).
  { split; [apply Z.log2_nonneg|]. apply Z.log2_lt_pow2; lia. }
  assert (E : Z.log2_up v = Z.log2 (v - 1) + 1).
  { rewrite Z.log2_up_eqn by lia. replace (Z.pred v) with (v - 1) by lia. lia. }
  rewrite E. set (k := Z.log2 (v - 1) + 1).
  assert (Hk : 0 <= k < 64) by (unfold k; lia).
  rewrite Z.ones_equiv.
  replace (Z.pred (2 ^ k) + 1) with (2 ^ k) by lia.
  unfold u64. apply Z.mod_small. split; [apply Z.pow_nonneg; lia|].
  apply Z.pow_lt_mono_r; lia.
Qed.

(** C9, as stated, fails at [0]: [0] is no power of two and neither is
    [roundP2 0 = 0]. *)
Lemma roundP2_spec_fails_at_0 : ~ roundP2_spec 0.
Proof.
  intros [_ H].
  assert (Hn : ~ is_pow2 0).
  { intros (k & Hk & E). pose proof (Z.pow_pos_nonneg 2 k). lia. }
  destruct (H Hn) as (_ & Hlt & _). vm_compute in Hlt. discriminate.
Qed.

(** C9, amended: for every [v] from [1] to [2^63], [roundP2 v] is [v] when
    [v] is a power of two and the next power of two greater than [v]
    otherwise. *)
Theorem roundP2_rounds_up (v : Z) :
  1 <= v <= 2 ^ 63 -> roundP2_spec v.
Proof.
  intros Hv. unfold roundP2_spec. rewrite roundP2_log2_up by exact Hv. split.
  - intros (k & Hk & ->). now rewrite Z.log2_up_pow2.
  - intros Hn.
    assert (H1 : 1 < v).
    { destruct (Z.eq_dec v 1) as [->|]; [|lia].
      exfalso. apply Hn. exists 0. split; [lia | reflexivity]. }
    pose proof (Z.log2_up_spec v H1) as [Hlo Hhi].
    pose proof (Z.log2_up_nonneg v) as Hnn.
    split; [exists (Z.log2_up v); split; [exact Hnn | reflexivity]|].
    split.
    + destruct (Z.eq_dec v (2 ^ Z.log2_up v)) as [E|]; [|lia].
      exfalso. apply Hn. exists (Z.log2_up v). split; [exact Hnn | exact E].
    + intros p (k & Hk & ->) Hlt.
      apply Z.pow_le_mono_r; [lia|].
      assert (Z.pred (Z.log2_up v) < k); [|lia].
      apply (Z.pow_lt_mono_r_iff 2); lia.
Qed.

Lemma roundP2_rounds_up_witness : 1 <= 5 <= 2 ^ 63 /\ roundP2_spec 5.
Proof.
  split; [split; vm_compute; congruence|].
  apply (roundP2_rounds_up 5). split; vm_compute; congruence.
Defined.

(** C10: [roundP2 0 = 0], and for every [v] above [2^63] the increment wraps
    and [roundP2 v = 0]; the result is then no power of two. *)
Theorem roundP2_edges (v : Z) :
  v = 0 \/ 2 ^ 63 < v < 2 ^ 64 ->
  roundP2 v = 0 /\ ~ is_pow2 (roundP2 v).
Proof.
  intros Hv.
  assert (E : roundP2 v = 0) by (apply roundP2_wraps; lia).
  split; [exact E|]. rewrite E.
  intros (k & Hk & Hp). pose proof (Z.pow_pos_nonneg 2 k). lia.
Qed.

Lemma roundP2_edges_witness :
  (2 ^ 63 + 1 = 0 \/ 2 ^ 63 < 2 ^ 63 + 1 < 2 ^ 64) /\
  roundP2 (2 ^ 63 + 1) = 0 /\ ~ is_pow2 (roundP2 (2 ^ 63 + 1)).
Proof.
  assert (H : 2 ^ 63 + 1 = 0 \/ 2 ^ 63 < 2 ^ 63 + 1 < 2 ^ 64).
  { right. split; vm_compute; reflexivity. }
  split; [exact H|]. apply (roundP2_edges (2 ^ 63 + 1) H).
Defined.

(** ** Slot atomics: results *)

Lemma CompareAndSwapPointer_eval (addr old new v : Z) (h : mem) :
  words h !! addr = Some v ->
  CompareAndSwapPointer addr old new h =
    if v =? old then Ok (true, set_word addr new h) else Ok (false, h).
Proof. intros H. unfold CompareAndSwapPointer. now rewrite H. Qed.

Lemma words_set_word_eq (a v : Z) (h : mem) : words (set_word a v h) !! a = Some v.
Proof. apply lookup_insert_eq. Qed.

Lemma words_set_word_ne (a b v : Z) (h : mem) :
  a <> b -> words (set_word a v h) !! b = words h !! b.
Proof. intros H. now apply lookup_insert_ne. Qed.

(** What [CASSliceSlot] does: the slot is compared with [target] and, on
    equality, overwritten with [data]. *)
Lemma CASSliceSlot_eval (A : arch) (h : mem) (addr data target index ptrsize base v : Z) :
  words h !! addr = Some base ->
  words h !! slot_address A base index ptrsize = Some v ->
  CASSliceSlot A addr data target index ptrsize h =
    if v =? target
    then Ok (true, set_word (slot_address A base index ptrsize) data h)
    else Ok (false, h).
Proof.
  intros Hb Hs. unfold CASSliceSlot, bind, LoadPointer. rewrite Hb.
  now apply CompareAndSwapPointer_eval.
Qed.

(** C7, on the code: with the slot holding the value passed as the old
    value ([data], 5) and a different new value ([target], 9), the call
    fails and leaves the slot alone; with the slot holding the value passed
    as the new value, the call succeeds and stores the "old" value. *)
Theorem CASSliceSlot_arguments_swapped :
  let h5 := mkMem (<[16 := 1000]> (<[1008 := 5]> ∅)) ∅ [] in
  let h9 := mkMem (<[16 := 1000]> (<[1008 := 9]> ∅)) ∅ [] in
  slot_address Arch64 1000 1 8 = 1008 /\
  CASSliceSlot Arch64 16 5 9 1 8 h5 = Ok (false, h5) /\
  CASSliceSlot Arch64 16 5 9 1 8 h9 = Ok (true, set_word 1008 5 h9).
Proof.
  intros h5 h9. split; [reflexivity|]. split.
  - apply (CASSliceSlot_eval Arch64 h5 16 5 9 1 8 1000 5); reflexivity.
  - apply (CASSliceSlot_eval Arch64 h9 16 5 9 1 8 1000 9); reflexivity.
Qed.

(** C8: on an empty slot [SetSliceSlot] returns true and the slot holds the
    value afterwards; on an occupied slot it returns false and the memory is
    unchanged. *)
Theorem SetSliceSlot_claims_empty_slot
    (A : arch) (h : mem) (addr index ptrsize d base v : Z) :
  words h !! addr = Some base ->
  words h !! slot_address A base index ptrsize = Some v ->
  (v = nil_ptr ->
   exists h', SetSliceSlot A addr index ptrsize d h = Ok (true, h') /\
     words h' !! slot_address A base index ptrsize = Some d /\
     forall a, a <> slot_address A base index ptrsize ->
       words h' !! a = words h !! a) /\
  (v <> nil_ptr -> SetSliceSlot A addr index ptrsize d h = Ok (false, h)).
Proof.
  intros Hb Hs. unfold SetSliceSlot.
  rewrite (CASSliceSlot_eval A h addr d nil_ptr index ptrsize base v Hb Hs).
  split.
  - intros ->. rewrite Z.eqb_refl. eexists; split; [reflexivity|]. split.
    + apply words_set_word_eq.
    + intros a Ha. apply words_set_word_ne. congruence.
  - intros Hv. apply Z.eqb_neq in Hv. now rewrite Hv.
Qed.

Lemma SetSliceSlot_claims_empty_slot_witness :
  let h := mkMem (<[16 := 1000]> (<[1008 := 0]> (<[1016 := 77]> ∅))) ∅ [] in
  (exists h', SetSliceSlot Arch64 16 1 8 5000 h = Ok (true, h') /\
     words h' !! 1008 = Some 5000) /\
  SetSliceSlot Arch64 16 2 8 5000 h = Ok (false, h).
Proof.
  intros h. split.
  - destruct (SetSliceSlot_claims_empty_slot Arch64 h 16 1 8 5000 1000 0)
      as [Hempty _]; [reflexivity | reflexivity |].
    destruct (Hempty eq_refl) as (h' & Hr & Hs & _).
    exists h'. split; [exact Hr | exact Hs].
  - destruct (SetSliceSlot_claims_empty_slot Arch64 h 16 2 8 5000 1000 77)
      as [_ Hocc]; [reflexivity | reflexivity |].
    apply Hocc. discriminate.
Defined.

(** ** RDCSS: one call *)

(** The tagged address of a descriptor. *)
Lemma TaggedPointer_one (A : arch) (p : Z) :
  TaggedPointer A p 1 = Ok (Z.lor p 1, None).
Proof. destruct A; reflexivity. Qed.

Lemma archPTRMASK_bits (A : arch) :
  archPTRMASK A =
  Z.lor (Z.shiftl (Z.ones (uintptr_bits A - 2)) 2)
        (match A with Arch32 => 1 | Arch64 => 0 end).
Proof. destruct A; vm_compute; reflexivity. Qed.

(** [Untag] leaves a naturally aligned pointer alone. *)
Lemma Untag_aligned (A : arch) (d : Z) :
  is_ptr A d -> aligned A d -> Untag A d = d.
Proof.
  intros Hp Ha. unfold Untag. apply Z.bits_inj'. intros i Hi.
  rewrite Z.land_spec. destruct (Z.testbit d i) eqn:E; [|reflexivity].
  simpl. rewrite archPTRMASK_bits, Z.lor_spec.
  assert (Hlow : 2 <= i).
  { destruct (Z.le_gt_cases 2 i) as [|Hlt]; [assumption|]. exfalso.
    assert (Hm : d mod 2 ^ 2 = 0).
    { unfold aligned in Ha. destruct A.
      - exact Ha.
      - change (d mod 8 = 0) in Ha. change (d mod 4 = 0).
        rewrite (Z.div_mod d 8), Ha by lia.
        replace (8 * (d / 8) + 0) with ((2 * (d / 8)) * 4) by lia.
        apply Z.mod_mul. lia. }
    rewrite <- (Z.mod_pow2_bits_low d 2 i), Hm, Z.bits_0 in E by lia.
    discriminate. }
  assert (Hhigh : i < uintptr_bits A).
  { destruct (Z.le_gt_cases (uintptr_bits A) i) as [Hge|]; [|assumption].
    exfalso. destruct (Z.eq_dec d 0) as [->|Hne].
    - rewrite Z.bits_0 in E. discriminate.
    - rewrite Z.bits_above_log2 in E; [discriminate | apply Hp |].
      apply Z.lt_le_trans with (uintptr_bits A); [|exact Hge].
      apply Z.log2_lt_pow2; [|apply Hp]. destruct Hp. lia. }
  rewrite Z.shiftl_spec, Z.ones_spec_low by lia. reflexivity.
Qed.

Lemma RDCSS_install_eval (A : arch) (h : mem) (d a1 o1 a2 o2 n w : Z) :
  words h !! a2 = Some w ->
  RDCSS_install A d a1 o1 a2 o2 n h =
    if w =? o2
    then Ok (true, set_word a2 (Z.lor d 1) (set_desc d (mkDesc a1 o1 a2 o2 n) h))
    else Ok (false, set_desc d (mkDesc a1 o1 a2 o2 n) h).
Proof.
  intros Hw.
  unfold RDCSS_install, bind, new_descriptor, lift, deref.
  rewrite TaggedPointer_one. cbn [descs set_desc fst].
  rewrite lookup_insert_eq.
  now apply CompareAndSwapPointer_eval.
Qed.

Lemma RDCSSComplete_eval (A : arch) (h : mem) (d c w : Z) (D : rdcssDescriptor) :
  is_ptr A d -> aligned A d ->
  descs h !! d = Some D ->
  words h !! a1 D = Some c ->
  words h !! a2 D = Some w ->
  RDCSSComplete A d h =
    if (c =? o1 D) && (w =? Z.lor d 1)
    then Ok (true, set_word (a2 D) (n D) h)
    else if w =? Z.lor d 1
         then Ok (false, set_word (a2 D) (o2 D) h)
         else Ok (false, add_log "[-] restoration failed." h).
Proof.
  intros Hp Ha HD Hc Hw.
  unfold RDCSSComplete, bind, lift, deref, LoadPointer.
  rewrite TaggedPointer_one, (Untag_aligned A d Hp Ha), HD, Hc. cbn [fst].
  destruct (c =? o1 D); cbn [andb].
  - rewrite (CompareAndSwapPointer_eval _ _ _ w h Hw).
    destruct (w =? Z.lor d 1) eqn:E; [reflexivity|].
    rewrite (CompareAndSwapPointer_eval _ _ _ w h Hw), E. reflexivity.
  - unfold ret at 1.
    rewrite (CompareAndSwapPointer_eval _ _ _ w h Hw).
    destruct (w =? Z.lor d 1); reflexivity.
Qed.

(** [RDCSS] is the install stage followed, on success, by the completion. *)
Lemma RDCSS_stages (A : arch) (h : mem) (d a1 o1 a2 o2 n : Z) :
  RDCSS A d a1 o1 a2 o2 n h =
    match RDCSS_install A d a1 o1 a2 o2 n h with
    | Ok (true, h1) => RDCSSComplete A d h1
    | Ok (false, h1) => Ok (false, h1)
    | Panic e => Panic e
    | Fault => Fault
    end.
Proof.
  unfold RDCSS, bind.
  destruct (RDCSS_install A d a1 o1 a2 o2 n h) as [[[] h1]| |]; reflexivity.
Qed.

(** C1: with the control and the data word at distinct addresses, [RDCSS]
    returns true and leaves [n] at [a2] exactly when, at the start of the
    call, [a2] holds [o2] and [a1] holds [o1]; when [a2] does not hold [o2]
    the call returns false and no word of the memory is modified. *)
Theorem RDCSS_commits_iff
    (A : arch) (h : mem) (d a1 o1 a2 o2 n v1 v2 : Z) :
  is_ptr A d -> aligned A d -> a1 <> a2 ->
  words h !! a1 = Some v1 -> words h !! a2 = Some v2 ->
  exists r h',
    RDCSS A d a1 o1 a2 o2 n h = Ok (r, h') /\
    ((r = true /\ words h' !! a2 = Some n) <-> (v2 = o2 /\ v1 = o1)) /\
    (v2 <> o2 -> r = false /\ words h' = words h).
Proof.
  intros Hp Ha Hne H1 H2.
  rewrite RDCSS_stages, (RDCSS_install_eval A h d a1 o1 a2 o2 n v2 H2).
  destruct (Z.eqb_spec v2 o2) as [->|Hv2].
  - set (D := mkDesc a1 o1 a2 o2 n).
    rewrite (RDCSSComplete_eval A _ d v1 (Z.lor d 1) D Hp Ha).
    + rewrite Z.eqb_refl. subst D. simpl.
      destruct (Z.eqb_spec v1 o1) as [->|Hv1]; cbn [andb].
      * eexists _, _. split; [reflexivity|]. split; [|congruence].
        split; [tauto|]. intros _. split; [reflexivity|].
        apply words_set_word_eq.
      * eexists _, _. split; [reflexivity|]. split; [|congruence].
        split; [intros [? _]; discriminate | tauto].
    + cbn [descs set_word set_desc]. apply lookup_insert_eq.
    + simpl. rewrite lookup_insert_ne by congruence. exact H1.
    + simpl. apply lookup_insert_eq.
  - eexists _, _. split; [reflexivity|]. split.
    + split; [intros [? _]; discriminate | tauto].
    + intros _. split; reflexivity.
Qed.

Lemma RDCSS_commits_iff_witness :
  let h := mkMem (<[100 := 16]> (<[200 := 48]> ∅)) ∅ [] in
  exists r h',
    RDCSS Arch64 4096 100 16 200 48 64 h = Ok (r, h') /\
    ((r = true /\ words h' !! 200 = Some 64) <-> (48 = 48 /\ 16 = 16)) /\
    (48 <> 48 -> r = false /\ words h' = words h).
Proof.
  intros h.
  apply (RDCSS_commits_iff Arch64 h 4096 100 16 200 48 64 16 48).
  - split; vm_compute; congruence.
  - reflexivity.
  - discriminate.
  - reflexivity.
  - reflexivity.
Defined.

(** C2: when [RDCSS] has installed its descriptor and, at completion time,
    the control address holds a value other than [o1] (whatever happened to
    the rest of the memory since the install), the completion returns false
    and leaves exactly [o2] at [a2]; with no interference in between this is
    the result of the [RDCSS] call itself. *)
Theorem RDCSS_rolls_back
    (A : arch) (h h1 h2 : mem) (d a1 o1 a2 o2 n c : Z) :
  is_ptr A d -> aligned A d ->
  RDCSS_install A d a1 o1 a2 o2 n h = Ok (true, h1) ->
  descs h2 !! d = descs h1 !! d ->
  words h2 !! a2 = words h1 !! a2 ->
  words h2 !! a1 = Some c -> c <> o1 ->
  exists h3,
    RDCSSComplete A d h2 = Ok (false, h3) /\
    words h3 !! a2 = Some o2 /\
    (h2 = h1 -> RDCSS A d a1 o1 a2 o2 n h = Ok (false, h3)).
Proof.
  intros Hp Ha Hi Hd Hw Hc Hne.
  assert (Hh1 : descs h1 !! d = Some (mkDesc a1 o1 a2 o2 n) /\
                words h1 !! a2 = Some (Z.lor d 1)).
  { destruct (words h !! a2) as [w|] eqn:E.
    - rewrite (RDCSS_install_eval A h d a1 o1 a2 o2 n w E) in Hi.
      destruct (w =? o2); inversion Hi; subst h1. split.
      + apply lookup_insert_eq.
      + apply words_set_word_eq.
    - unfold RDCSS_install, bind, new_descriptor, lift, deref in Hi.
      rewrite TaggedPointer_one in Hi. cbn [descs set_desc fst] in Hi.
      rewrite lookup_insert_eq in Hi. unfold CompareAndSwapPointer in Hi.
      change (words (set_desc d (mkDesc a1 o1 a2 o2 n) h)) with (words h) in Hi.
      rewrite E in Hi. discriminate. }
  destruct Hh1 as [HD HW]. rewrite HD in Hd. rewrite HW in Hw.
  set (D := mkDesc a1 o1 a2 o2 n) in *.
  rewrite (RDCSSComplete_eval A h2 d c (Z.lor d 1) D Hp Ha Hd Hc Hw).
  apply Z.eqb_neq in Hne. simpl. rewrite Hne, Z.eqb_refl. simpl.
  eexists. split; [reflexivity|]. split.
  - apply words_set_word_eq.
  - intros ->. rewrite RDCSS_stages, Hi.
    rewrite (RDCSSComplete_eval A h1 d c (Z.lor d 1) D Hp Ha Hd Hc Hw).
    simpl. rewrite Hne, Z.eqb_refl. reflexivity.
Qed.

Lemma RDCSS_rolls_back_witness :
  let h := mkMem (<[100 := 17]> (<[200 := 48]> ∅)) ∅ [] in
  let h1 := set_word 200 4097 (set_desc 4096 (mkDesc 100 16 200 48 64) h) in
  exists h3,
    RDCSSComplete Arch64 4096 h1 = Ok (false, h3) /\
    words h3 !! 200 = Some 48 /\
    (h1 = h1 -> RDCSS Arch64 4096 100 16 200 48 64 h = Ok (false, h3)).
Proof.
  intros h h1.
  apply (RDCSS_rolls_back Arch64 h h1 h1 4096 100 16 200 48 64 17).
  - split; vm_compute; congruence.
  - reflexivity.
  - reflexivity.
  - reflexivity.
  - reflexivity.
  - reflexivity.
  - discriminate.
Defined.
(** Case analysis over the lookups and comparisons of a run. *)
Ltac step_cases :=
  repeat (cbn beta iota delta [t_pc t_args t_desc at_pc fst];
          first
            [ rewrite TaggedPointer_one
            | match goal with
              | |- context [descs ?h !! ?p] => destruct (descs h !! p) eqn:?
              | |- context [words ?h !! ?p] => destruct (words h !! p) eqn:?
              | |- context [?x =? ?y] => destruct (x =? y) eqn:?
              end ]).

(** ** RDCSS: two racing calls *)

(** A thread that is never preempted computes [RDCSS]. *)
Lemma run_alone_RDCSS (A : arch) (h : mem) (d a1 o1 a2 o2 n : Z) :
  run_alone A (mkThread d (mkDesc a1 o1 a2 o2 n) PInstall) h =
  bind (RDCSS A d a1 o1 a2 o2 n) (fun r => ret (PDone r)) h.
Proof.
  unfold run_alone, RDCSS. unfold thread_step at 1. cbn [t_pc t_args t_desc].
  unfold bind at 1 2 6 7.
  destruct (RDCSS_install A d a1 o1 a2 o2 n h) as [[[] h1]| |]; try reflexivity.
  unfold RDCSSComplete, thread_step, bind, lift, deref, LoadPointer,
    CompareAndSwapPointer, Println, ret.
  step_cases; try reflexivity; congruence.
Qed.

Lemma step_install_eval (A : arch) (d w : Z) (D : rdcssDescriptor) (h : mem) :
  words h !! a2 D = Some w ->
  thread_step A (mkThread d D PInstall) h =
    if w =? o2 D
    then Ok (mkThread d D PReadControl,
             set_word (a2 D) (Z.lor d 1) (set_desc d D h))
    else Ok (mkThread d D (PDone false), set_desc d D h).
Proof.
  intros Hw. destruct D as [c_a1 c_o1 c_a2 c_o2 c_n]. simpl in Hw.
  unfold thread_step, bind. cbn [t_pc t_args t_desc].
  rewrite (RDCSS_install_eval A h d c_a1 c_o1 c_a2 c_o2 c_n w Hw). simpl.
  destruct (w =? c_o2); reflexivity.
Qed.

Lemma step_read_eval (A : arch) (d c : Z) (D : rdcssDescriptor) (h : mem) :
  is_ptr A d -> aligned A d ->
  descs h !! d = Some D -> words h !! a1 D = Some c ->
  thread_step A (mkThread d D PReadControl) h =
    Ok (mkThread d D (if c =? o1 D then PCommit else PRollback), h).
Proof.
  intros Hp Ha HD Hc.
  unfold thread_step, bind, lift, deref, LoadPointer, ret, at_pc.
  cbn [t_pc t_args t_desc].
  now rewrite TaggedPointer_one, (Untag_aligned A d Hp Ha), HD, Hc.
Qed.

Lemma step_commit_eval (A : arch) (d w : Z) (D : rdcssDescriptor) (h : mem) :
  is_ptr A d -> aligned A d ->
  descs h !! d = Some D -> words h !! a2 D = Some w ->
  thread_step A (mkThread d D PCommit) h =
    if w =? Z.lor d 1
    then Ok (mkThread d D (PDone true), set_word (a2 D) (n D) h)
    else Ok (mkThread d D PRollback, h).
Proof.
  intros Hp Ha HD Hw.
  unfold thread_step, bind, lift, deref, ret, at_pc.
  cbn [t_pc t_args t_desc].
  rewrite TaggedPointer_one, (Untag_aligned A d Hp Ha), HD. cbn [fst].
  rewrite (CompareAndSwapPointer_eval _ _ _ w h Hw).
  destruct (w =? Z.lor d 1); reflexivity.
Qed.

Section Race.

Variable A : arch.

  (** The call that installed its descriptor goes on to commit. *)
Lemma leader_step (d : Z) (D : rdcssDescriptor) (p q : pc) (h : mem) :
    is_ptr A d -> aligned A d -> a1 D <> a2 D ->
    words h !! a1 D = Some (o1 D) ->
    ahead d D p q h ->
    exists p' h',
      thread_step A (mkThread d D p) h = Ok (mkThread d D p', h') /\
      words h' !! a1 D = Some (o1 D) /\
      ahead d D p' q h' /\
      (remaining p' <= remaining p - 1)%nat.
  Proof.
    intros Hp Ha Hne Hc [Hq [[Hpc [HD HW]] | [-> HW]]].
    - destruct Hpc as [-> | ->].
      + exists PCommit, h.
        rewrite (step_read_eval A d (o1 D) D h Hp Ha HD Hc), Z.eqb_refl.
        repeat split; [exact Hc | exact Hq | | simpl; lia].
        left. repeat split; [right; reflexivity | exact HD | exact HW].
      + exists (PDone true), (set_word (a2 D) (n D) h).
        rewrite (step_commit_eval A d (Z.lor d 1) D h Hp Ha HD HW), Z.eqb_refl.
        repeat split; [| exact Hq | | simpl; lia].
        * rewrite words_set_word_ne by congruence. exact Hc.
        * right. split; [reflexivity | apply words_set_word_eq].
    - exists (PDone true), h.
      repeat split; [exact Hc | exact Hq | | simpl; lia].
      right. split; [reflexivity | exact HW].
  Qed.

  (** The other call finds the data address taken and aborts. *)
Lemma follower_step (d e : Z) (D E : rdcssDescriptor) (p q : pc) (h : mem) :
    d <> e -> a2 E = a2 D ->
    o2 E <> Z.lor d 1 -> o2 E <> n D ->
    ahead d D p q h ->
    exists q' h',
      thread_step A (mkThread e E q) h = Ok (mkThread e E q', h') /\
      words h' = words h /\
      ahead d D p q' h' /\
      (remaining q' <= remaining q - 1)%nat.
  Proof.
    intros Hde Ha2 Hf Hn [Hq Hlead].
    destruct Hq as [-> | ->].
    - assert (Hw : exists w, words h !! a2 E = Some w /\ w <> o2 E).
      { rewrite Ha2. destruct Hlead as [(_ & _ & HW) | [_ HW]];
          eexists; (split; [exact HW | congruence]). }
      destruct Hw as (w & Hw & Hwne).
      exists (PDone false), (set_desc e E h).
      rewrite (step_install_eval A e w E h Hw).
      apply Z.eqb_neq in Hwne. rewrite Hwne.
      repeat split; [right; reflexivity | | simpl; lia].
      destruct Hlead as [(Hpc & HD & HW) | [Hpc HW]].
      + left. repeat split; [exact Hpc | | exact HW].
        cbn [descs set_desc]. rewrite lookup_insert_ne by congruence. exact HD.
      + right. split; [exact Hpc | exact HW].
    - exists (PDone false), h.
      repeat split; [right; reflexivity | exact Hlead | simpl; lia].
  Qed.

  (** The first install of the race succeeds. *)
Lemma start_step (d : Z) (D : rdcssDescriptor) (h : mem) :
    a1 D <> a2 D -> words h !! a2 D = Some (o2 D) ->
    exists h',
      thread_step A (mkThread d D PInstall) h = Ok (mkThread d D PReadControl, h') /\
      words h' !! a1 D = words h !! a1 D /\
      ahead d D PReadControl PInstall h'.
  Proof.
    intros Hne Hw.
    exists (set_word (a2 D) (Z.lor d 1) (set_desc d D h)).
    rewrite (step_install_eval A d (o2 D) D h Hw), Z.eqb_refl.
    split; [reflexivity|]. split.
    - cbn [words set_word set_desc]. apply lookup_insert_ne. congruence.
    - split; [left; reflexivity|].
      left. repeat split; [left; reflexivity | apply lookup_insert_eq |].
      apply words_set_word_eq.
  Qed.

End Race.

Section RaceInvariant.

Variable A : arch.
Variables d1 d2 : Z.
Variables D1 D2 : rdcssDescriptor.

Hypothesis Hptr1 : is_ptr A d1.
Hypothesis Hali1 : aligned A d1.
Hypothesis Hptr2 : is_ptr A d2.
Hypothesis Hali2 : aligned A d2.
Hypothesis Hdesc : d1 <> d2.
Hypothesis Hca1 : a1 D2 = a1 D1.
Hypothesis Hco1 : o1 D2 = o1 D1.
Hypothesis Hca2 : a2 D2 = a2 D1.
Hypothesis Hco2 : o2 D2 = o2 D1.
Hypothesis Hdist : a1 D1 <> a2 D1.
Hypothesis Hfresh1 : o2 D1 <> Z.lor d1 1.
Hypothesis Hfresh2 : o2 D2 <> Z.lor d2 1.
Hypothesis Hnew1 : n D1 <> o2 D1.
Hypothesis Hnew2 : n D2 <> o2 D2.

Lemma sys_step_inv (i : tid) (s : thread * thread) (h : mem) :
    race_inv d1 d2 D1 D2 s h ->
    exists s' h',
      sys_step A i s h = Ok (s', h') /\
      race_inv d1 d2 D1 D2 s' h' /\
      (remaining (t_pc (fst s')) <= remaining (t_pc (fst s)) - steps_of T1 [i])%nat /\
      (remaining (t_pc (snd s')) <= remaining (t_pc (snd s)) - steps_of T2 [i])%nat.
  Proof.
    destruct s as [[d D p] [e E q]]. unfold race_inv. cbn [fst snd t_desc t_args t_pc].
    intros (-> & -> & -> & -> & Hc & Hcases).
    assert (Hc2 : words h !! a1 D2 = Some (o1 D2)) by (now rewrite Hca1, Hco1).
    assert (Hdist2 : a1 D2 <> a2 D2) by congruence.
    destruct i; unfold sys_step, bind; cbn [fst snd steps_of].
    - destruct Hcases as [(-> & -> & Hw) | [Hlead | Hlead]].
      + destruct (start_step A d1 D1 h Hdist Hw) as (h' & -> & Hc' & Hlead).
        eexists _, h'. split; [reflexivity|].
        cbn [fst snd t_desc t_args t_pc]. repeat split; [| | simpl; lia | lia].
        * now rewrite Hc'.
        * right; left. exact Hlead.
      + destruct (leader_step A d1 D1 p q h Hptr1 Hali1 Hdist Hc Hlead)
          as (p' & h' & -> & Hc' & Hlead' & Hrem).
        eexists _, h'. split; [reflexivity|].
        cbn [fst snd t_desc t_args t_pc]. repeat split; [exact Hc' | | exact Hrem | lia].
        right; left. exact Hlead'.
      + destruct (follower_step A d2 d1 D2 D1 q p h) as (p' & h' & -> & Hw' & Hlead' & Hrem);
          [congruence | congruence | congruence | congruence | exact Hlead |].
        eexists _, h'. split; [reflexivity|].
        cbn [fst snd t_desc t_args t_pc]. repeat split; [| | exact Hrem | lia].
        * now rewrite Hw'.
        * right; right. exact Hlead'.
    - destruct Hcases as [(-> & -> & Hw) | [Hlead | Hlead]].
      + assert (Hw2 : words h !! a2 D2 = Some (o2 D2)) by (now rewrite Hca2, Hco2).
        destruct (start_step A d2 D2 h Hdist2 Hw2) as (h' & -> & Hc' & Hlead).
        eexists _, h'. split; [reflexivity|].
        cbn [fst snd t_desc t_args t_pc]. repeat split; [| | lia | simpl; lia].
        * now rewrite <- Hca1, <- Hco1, Hc'.
        * right; right. exact Hlead.
      + destruct (follower_step A d1 d2 D1 D2 p q h) as (q' & h' & -> & Hw' & Hlead' & Hrem);
          [congruence | congruence | congruence | congruence | exact Hlead |].
        eexists _, h'. split; [reflexivity|].
        cbn [fst snd t_desc t_args t_pc]. repeat split; [| | lia | exact Hrem].
        * now rewrite Hw'.
        * right; left. exact Hlead'.
      + destruct (leader_step A d2 D2 q p h Hptr2 Hali2 Hdist2 Hc2 Hlead)
          as (q' & h' & -> & Hc' & Hlead' & Hrem).
        eexists _, h'. split; [reflexivity|].
        cbn [fst snd t_desc t_args t_pc]. repeat split; [| | lia | exact Hrem].
        * now rewrite <- Hca1, <- Hco1.
        * right; right. exact Hlead'.
  Qed.

Lemma steps_of_cons (i j : tid) (sched : list tid) :
    steps_of i (j :: sched) = (steps_of i [j] + steps_of i sched)%nat.
  Proof. destruct i, j; reflexivity. Qed.

Lemma run_inv (sched : list tid) :
    forall (s : thread * thread) (h : mem),
      race_inv d1 d2 D1 D2 s h ->
      exists s' h',
        run A sched s h = Ok (s', h') /\
        race_inv d1 d2 D1 D2 s' h' /\
        (remaining (t_pc (fst s')) <= remaining (t_pc (fst s)) - steps_of T1 sched)%nat /\
        (remaining (t_pc (snd s')) <= remaining (t_pc (snd s)) - steps_of T2 sched)%nat.
  Proof.
    induction sched as [|i rest IH]; intros s h Hinv.
    - exists s, h. split; [reflexivity|]. split; [exact Hinv|]. simpl. lia.
    - destruct (sys_step_inv i s h Hinv) as (s1 & h1 & Hstep & Hinv1 & Hr1 & Hr2).
      destruct (IH s1 h1 Hinv1) as (s' & h' & Hrun & Hinv' & Hr1' & Hr2').
      exists s', h'. split.
      + cbn [run]. unfold bind. rewrite Hstep. exact Hrun.
      + split; [exact Hinv'|]. rewrite !(steps_of_cons _ i rest). lia.
  Qed.

Lemma race_inv_final (s : thread * thread) (h : mem) :
    race_inv d1 d2 D1 D2 s h ->
    finished (fst s) -> finished (snd s) -> exactly_one_committed s h.
  Proof.
    destruct s as [[d D p] [e E q]]. unfold race_inv, finished, exactly_one_committed, sole_winner.
    cbn [fst snd t_desc t_args t_pc].
    intros (-> & -> & -> & -> & _ & Hcases) [r1 ->] [r2 ->].
    destruct Hcases as [(Hp & _) | [[Hq Hlead] | [Hq Hlead]]]; [discriminate | |].
    - left. destruct Hlead as [([Hp|Hp] & _) | [Hp HW]]; try discriminate.
      destruct Hq as [Hq|Hq]; [discriminate|]. repeat split; assumption.
    - right. destruct Hlead as [([Hp|Hp] & _) | [Hp HW]]; try discriminate.
      destruct Hq as [Hq|Hq]; [discriminate|]. repeat split; assumption.
  Qed.

End RaceInvariant.

Lemma remaining_0_finished (t : thread) :
  (remaining (t_pc t) <= 0)%nat -> finished t.
Proof.
  unfold finished. destruct (t_pc t); simpl; intros H; try lia. eexists; reflexivity.
Qed.

Lemma run_both_commit :
  exists s' h',
    run Arch64 [T1; T1; T1; T2; T2; T2]
      (mkThread 4096 (mkDesc 100 16 200 48 48) PInstall,
       mkThread 8192 (mkDesc 100 16 200 48 64) PInstall)
      (mkMem (<[100 := 16]> (<[200 := 48]> ∅)) ∅ []) = Ok (s', h') /\
    t_pc (fst s') = PDone true /\ t_pc (snd s') = PDone true /\
    words h' !! 200 = Some 64.
Proof.
  eexists _, _. split; [vm_compute; reflexivity|].
  repeat split; reflexivity.
Qed.

(** C3, as stated, fails when the new value of one call is the expected old
    value: once that call has committed, the data address holds the expected
    value again and the other call commits as well. *)
Lemma RDCSS_race_both_commit :
  let h := mkMem (<[100 := 16]> (<[200 := 48]> ∅)) ∅ [] in
  let s := (mkThread 4096 (mkDesc 100 16 200 48 48) PInstall,
            mkThread 8192 (mkDesc 100 16 200 48 64) PInstall) in
  race_setup Arch64 h s /\
  ~ race_outcome Arch64 h s [T1; T1; T1; T2; T2; T2].
Proof.
  intros h s. split.
  - unfold race_setup, racing, fresh_descriptor, is_ptr, aligned. subst h s.
    cbn [fst snd t_pc t_args t_desc a1 o1 a2 o2 n words].
    repeat split; try reflexivity; try discriminate.
  - intros (s' & h' & Hrun & Hone).
    destruct run_both_commit as (s0 & h0 & Hrun0 & Hp1 & Hp2 & _).
    subst h s. rewrite Hrun0 in Hrun. inversion Hrun; subst s0 h0.
    destruct Hone as [(_ & Hq & _) | (_ & Hq & _)];
      try (eexists; eassumption); congruence.
Qed.

(** C3, amended: two calls of [RDCSS] race on the same distinct control and
    data addresses, with the expected values the memory holds, and neither
    new value is the expected old value.  Under every schedule the calls run
    without a fault; once both have returned, exactly one has committed and
    the data address holds its new value; and both have returned as soon as
    each has been scheduled three times. *)
Theorem RDCSS_race_one_winner
    (A : arch) (h : mem) (s : thread * thread) (sched : list tid) :
  race_setup A h s ->
  n (t_args (fst s)) <> o2 (t_args (fst s)) ->
  n (t_args (snd s)) <> o2 (t_args (snd s)) ->
  race_outcome A h s sched /\
  forall s' h',
    run A sched s h = Ok (s', h') ->
    (3 <= steps_of T1 sched)%nat -> (3 <= steps_of T2 sched)%nat ->
    finished (fst s') /\ finished (snd s').
Proof.
  intros (Hrace & Hdist & Hf1 & Hf2 & Hdesc) Hn1 Hn2.
  destruct Hrace as (Hpc1 & Hpc2 & Ha1 & Ho1 & Ha2 & Ho2 & Hc & Hw).
  destruct Hf1 as (Hp1 & Hal1 & Hfr1). destruct Hf2 as (Hp2 & Hal2 & Hfr2).
  assert (Hinv : race_inv (t_desc (fst s)) (t_desc (snd s))
                   (t_args (fst s)) (t_args (snd s)) s h).
  { unfold race_inv. repeat split; [exact Hc|]. left. repeat split; assumption. }
  destruct (run_inv A _ _ _ _ Hp1 Hal1 Hp2 Hal2 Hdesc
              (eq_sym Ha1) (eq_sym Ho1) (eq_sym Ha2) (eq_sym Ho2)
              Hdist Hfr1 Hfr2 Hn1 Hn2 sched s h Hinv)
    as (s1 & h1 & Hrun & Hinv1 & Hr1 & Hr2).
  split.
  - exists s1, h1. split; [exact Hrun|].
    apply (race_inv_final _ _ _ _ s1 h1 Hinv1).
  - intros s' h' Hrun' H1 H2. rewrite Hrun in Hrun'. inversion Hrun'; subst s' h'.
    rewrite Hpc1 in Hr1. rewrite Hpc2 in Hr2. simpl in Hr1, Hr2.
    split; apply remaining_0_finished; lia.
Qed.

Lemma RDCSS_race_one_winner_witness :
  let h := mkMem (<[100 := 16]> (<[200 := 48]> ∅)) ∅ [] in
  let s := (mkThread 4096 (mkDesc 100 16 200 48 64) PInstall,
            mkThread 8192 (mkDesc 100 16 200 48 80) PInstall) in
  let sched := [T2; T1; T2; T1; T1; T2] in
  race_setup Arch64 h s /\
  race_outcome Arch64 h s sched /\
  forall s' h',
    run Arch64 sched s h = Ok (s', h') ->
    (3 <= steps_of T1 sched)%nat -> (3 <= steps_of T2 sched)%nat ->
    finished (fst s') /\ finished (snd s').
Proof.
  intros h s sched.
  assert (Hsetup : race_setup Arch64 h s).
  { unfold race_setup, racing, fresh_descriptor, is_ptr, aligned. subst h s.
    cbn [fst snd t_pc t_args t_desc a1 o1 a2 o2 n words].
    repeat split; try reflexivity; discriminate. }
  split; [exact Hsetup|].
  apply (RDCSS_race_one_winner Arch64 h s sched Hsetup); discriminate.
Defined.

(** * Further results *)

(** ** Pointer tagging: further results *)

Lemma GetTag_TaggedPointer_witness :
  aligned Arch32 4096 /\ 0 <= 3 <= archMAXTAG Arch32 /\
  exists p, TaggedPointer Arch32 4096 3 = Ok (p, None) /\ GetTag Arch32 p = 3.
Proof.
  assert (Ha : aligned Arch32 4096) by reflexivity.
  assert (Ht : 0 <= 3 <= archMAXTAG Arch32) by (split; vm_compute; congruence).
  split; [exact Ha|]. split; [exact Ht|].
  apply (GetTag_TaggedPointer Arch32 4096 3 Ha Ht).
Defined.

Lemma TaggedPointer_valid (A : arch) (p t : Z) :
  t <= archMAXTAG A -> TaggedPointer A p t = Ok (Z.lor p t, None).
Proof.
  intros Ht. unfold TaggedPointer.
  destruct (Z.ltb_spec (archMAXTAG A) t); [lia | reflexivity].
Qed.

Lemma GetTag_mod (A : arch) (p : Z) : GetTag A p = p mod archWORDSIZE A.
Proof.
  unfold GetTag. rewrite archMAXTAG_ones, Z.land_ones by apply Z.log2_nonneg.
  now rewrite <- archWORDSIZE_pow2.
Qed.

Lemma archWORDSIZE_pos (A : arch) : 0 < archWORDSIZE A.
Proof. destruct A; vm_compute; reflexivity. Qed.

Lemma GetTag_valid_tag (A : arch) (t : Z) :
  0 <= t <= archMAXTAG A -> GetTag A t = t.
Proof.
  intros Ht. rewrite GetTag_mod. apply Z.mod_small.
  unfold archMAXTAG in Ht. lia.
Qed.

Lemma GetTag_lor (A : arch) (p t : Z) :
  GetTag A (Z.lor p t) = Z.lor (GetTag A p) (GetTag A t).
Proof. unfold GetTag. apply Z.land_lor_distr_l. Qed.

(** X3: The tag read from any pointer is a valid tag: it lies within
    [0, archMAXTAG], and [TaggedPointer] accepts it on any pointer. *)
Theorem GetTag_in_range (A : arch) (p q : Z) :
  0 <= GetTag A p <= archMAXTAG A /\
  TaggedPointer A q (GetTag A p) = Ok (Z.lor q (GetTag A p), None).
Proof.
  assert (H : 0 <= GetTag A p <= archMAXTAG A).
  { rewrite GetTag_mod. pose proof (Z.mod_pos_bound p _ (archWORDSIZE_pos A)).
    unfold archMAXTAG. lia. }
  split; [exact H|]. apply TaggedPointer_valid. lia.
Qed.

(** X2: Tagging a pointer that already carries a tag merges the two tags: the
    tag of the result is the bitwise or of the old tag and the new one. *)
Theorem TaggedPointer_merges_tags (A : arch) (p t : Z) :
  0 <= t <= archMAXTAG A ->
  exists q, TaggedPointer A p t = Ok (q, None) /\
            GetTag A q = Z.lor (GetTag A p) t.
Proof.
  intros Ht. exists (Z.lor p t). split; [apply TaggedPointer_valid; lia|].
  now rewrite GetTag_lor, (GetTag_valid_tag A t Ht).
Qed.

Lemma TaggedPointer_merges_tags_witness :
  0 <= 2 <= archMAXTAG Arch64 /\
  exists q, TaggedPointer Arch64 4101 2 = Ok (q, None) /\
            GetTag Arch64 q = Z.lor (GetTag Arch64 4101) 2.
Proof.
  assert (H : 0 <= 2 <= archMAXTAG Arch64) by (split; vm_compute; congruence).
  split; [exact H|]. apply (TaggedPointer_merges_tags Arch64 4101 2 H).
Defined.

(** X4: A naturally aligned pointer is untagged: [Untag] returns it unchanged,
    its tag is 0, and neither [HasTag] nor [IsRDCSSDescriptor] holds. *)
Theorem aligned_pointer_untagged (A : arch) (p : Z) :
  is_ptr A p -> aligned A p ->
  Untag A p = p /\ GetTag A p = 0 /\
  HasTag A p = false /\ IsRDCSSDescriptor A p = false.
Proof.
  intros Hp Ha.
  assert (Hg : GetTag A p = 0) by (rewrite GetTag_mod; exact Ha).
  assert (Hh : HasTag A p = false) by (unfold HasTag; now rewrite Hg).
  repeat split; [apply Untag_aligned; assumption | exact Hg | exact Hh | exact Hh].
Qed.

Lemma aligned_pointer_untagged_witness :
  is_ptr Arch32 4096 /\ aligned Arch32 4096 /\
  Untag Arch32 4096 = 4096 /\ GetTag Arch32 4096 = 0 /\
  HasTag Arch32 4096 = false /\ IsRDCSSDescriptor Arch32 4096 = false.
Proof.
  assert (Hp : is_ptr Arch32 4096) by (split; vm_compute; congruence).
  assert (Ha : aligned Arch32 4096) by reflexivity.
  split; [exact Hp|]. split; [exact Ha|].
  apply (aligned_pointer_untagged Arch32 4096 Hp Ha).
Defined.

(** X5: On a naturally aligned address, [HasTag] of the tagged pointer holds
    for every valid tag other than 0 (not only for tag 1), and fails for
    tag 0. *)
Theorem HasTag_TaggedPointer (A : arch) (a t : Z) :
  aligned A a -> 0 <= t <= archMAXTAG A ->
  exists q, TaggedPointer A a t = Ok (q, None) /\
            (HasTag A q = true <-> t <> 0) /\
            IsRDCSSDescriptor A q = HasTag A q.
Proof.
  intros Ha Ht. exists (Z.lor a t). split; [apply TaggedPointer_valid; lia|].
  split; [|reflexivity].
  unfold HasTag. rewrite GetTag_lor, (GetTag_valid_tag A t Ht), GetTag_mod, Ha.
  rewrite Z.lor_0_l. change (Z.land t (archMAXTAG A)) with (GetTag A t).
  rewrite (GetTag_valid_tag A t Ht). rewrite Z.ltb_lt. lia.
Qed.

Lemma HasTag_TaggedPointer_witness :
  aligned Arch64 4096 /\ 0 <= 6 <= archMAXTAG Arch64 /\
  exists q, TaggedPointer Arch64 4096 6 = Ok (q, None) /\
            (HasTag Arch64 q = true <-> 6 <> 0) /\
            IsRDCSSDescriptor Arch64 q = HasTag Arch64 q.
Proof.
  assert (Ha : aligned Arch64 4096) by reflexivity.
  assert (Ht : 0 <= 6 <= archMAXTAG Arch64) by (split; vm_compute; congruence).
  split; [exact Ha|]. split; [exact Ht|].
  apply (HasTag_TaggedPointer Arch64 4096 6 Ha Ht).
Defined.

Lemma Untag_lor (A : arch) (p t : Z) :
  Untag A (Z.lor p t) = Z.lor (Untag A p) (Untag A t).
Proof. unfold Untag. apply Z.land_lor_distr_l. Qed.



(** X7: [Untag] is idempotent, and on a pointer it never moves upwards and
    stays a pointer. *)
Theorem Untag_idempotent_below (A : arch) (p : Z) :
  Untag A (Untag A p) = Untag A p /\
  (is_ptr A p -> is_ptr A (Untag A p) /\ Untag A p <= p).
Proof.
  unfold Untag. split.
  - now rewrite <- Z.land_assoc, Z.land_diag.
  - intros [H0 Hlt].
    assert (Hle : Z.land p (archPTRMASK A) <= p).
    { pose proof (Z.sub_land_same_l p (archPTRMASK A)) as E.
      assert (0 <= Z.land p (Z.lnot (archPTRMASK A))).
      { apply Z.land_nonneg. left. exact H0. }
      lia. }
    assert (0 <= Z.land p (archPTRMASK A)).
    { apply Z.land_nonneg. left. exact H0. }
    unfold is_ptr. lia.
Qed.

Lemma Untag_idempotent_below_witness :
  is_ptr Arch64 4103 /\
  Untag Arch64 (Untag Arch64 4103) = Untag Arch64 4103 /\
  is_ptr Arch64 (Untag Arch64 4103) /\ Untag Arch64 4103 <= 4103.
Proof.
  assert (Hp : is_ptr Arch64 4103) by (split; vm_compute; congruence).
  split; [exact Hp|].
  destruct (Untag_idempotent_below Arch64 4103) as [Hi Hb].
  split; [exact Hi | exact (Hb Hp)].
Defined.

(** ** Capacity rounding: further results *)

Lemma pow2_pos (k : Z) : 0 <= k -> 0 < 2 ^ k.
Proof. intros Hk. apply Z.pow_pos_nonneg; lia. Qed.

Lemma log2_up_le_63 (v : Z) : 1 <= v <= 2 ^ 63 -> 0 <= Z.log2_up v <= 63.
Proof.
  intros Hv. split; [apply Z.log2_up_nonneg|].
  rewrite <- (Z.log2_up_pow2 63) by lia. apply Z.log2_up_le_mono. lia.
Qed.

(** X8: Over the whole of [uint64], [roundP2] returns 0 exactly for 0 and for
    the values above [2^63]; every other result is a power of two. *)
Theorem roundP2_zero_iff (v : Z) :
  0 <= v < 2 ^ 64 ->
  (roundP2 v = 0 <-> v = 0 \/ 2 ^ 63 < v) /\
  (roundP2 v <> 0 -> is_pow2 (roundP2 v)).
Proof.
  intros Hv.
  destruct (Z.eq_dec v 0) as [->|Hne].
  { split; [split; [intros _; left; reflexivity | reflexivity]|].
    intros H. exfalso. apply H. reflexivity. }
  destruct (Z.le_gt_cases v (2 ^ 63)) as [Hle|Hgt].
  - assert (Hin : 1 <= v <= 2 ^ 63) by lia.
    rewrite (roundP2_log2_up v Hin).
    pose proof (log2_up_le_63 v Hin) as Hk.
    pose proof (pow2_pos (Z.log2_up v) (proj1 Hk)) as Hpos.
    split; [split; [lia | intros [?|?]; lia]|].
    intros _. exists (Z.log2_up v). split; [lia | reflexivity].
  - rewrite (roundP2_wraps v) by lia.
    split; [split; [intros _; right; lia | reflexivity]|].
    intros H. exfalso. apply H. reflexivity.
Qed.

Lemma roundP2_zero_iff_witness :
  0 <= 2 ^ 63 < 2 ^ 64 /\
  (roundP2 (2 ^ 63) = 0 <-> 2 ^ 63 = 0 \/ 2 ^ 63 < 2 ^ 63) /\
  (roundP2 (2 ^ 63) <> 0 -> is_pow2 (roundP2 (2 ^ 63))).
Proof.
  assert (H : 0 <= 2 ^ 63 < 2 ^ 64) by (split; vm_compute; congruence).
  split; [exact H|]. apply (roundP2_zero_iff (2 ^ 63) H).
Defined.

(** X9: Rounding twice is rounding once, for every [uint64] input. *)
Theorem roundP2_idempotent (v : Z) :
  0 <= v < 2 ^ 64 -> roundP2 (roundP2 v) = roundP2 v.
Proof.
  intros Hv.
  destruct (Z.eq_dec v 0) as [->|Hne]; [reflexivity|].
  destruct (Z.le_gt_cases v (2 ^ 63)) as [Hle|Hgt].
  - assert (Hin : 1 <= v <= 2 ^ 63) by lia.
    rewrite (roundP2_log2_up v Hin).
    pose proof (log2_up_le_63 v Hin) as Hk.
    rewrite roundP2_log2_up.
    + now rewrite Z.log2_up_pow2 by lia.
    + split.
      * pose proof (pow2_pos (Z.log2_up v) (proj1 Hk)). lia.
      * apply Z.pow_le_mono_r; lia.
  - rewrite (roundP2_wraps v) by lia. reflexivity.
Qed.

Lemma roundP2_idempotent_witness :
  0 <= 1000 < 2 ^ 64 /\ roundP2 (roundP2 1000) = roundP2 1000.
Proof.
  assert (H : 0 <= 1000 < 2 ^ 64) by (split; vm_compute; congruence).
  split; [exact H|]. apply (roundP2_idempotent 1000 H).
Defined.

(** X10: Between 1 and [2^63] the rounding goes upwards and less than doubles:
    [v <= roundP2 v < 2 * v]. *)
Theorem roundP2_less_than_double (v : Z) :
  1 <= v <= 2 ^ 63 -> v <= roundP2 v < 2 * v.
Proof.
  intros Hv. rewrite (roundP2_log2_up v Hv).
  destruct (Z.eq_dec v 1) as [->|Hne]; [split; vm_compute; congruence|].
  assert (H1 : 1 < v) by lia.
  pose proof (Z.log2_up_spec v H1) as [Hlo Hhi].
  pose proof (Z.log2_up_pos v H1) as Hpos.
  split; [exact Hhi|].
  replace (Z.log2_up v) with (Z.succ (Z.pred (Z.log2_up v))) by lia.
  rewrite Z.pow_succ_r by lia. lia.
Qed.

Lemma roundP2_less_than_double_witness :
  1 <= 1000 <= 2 ^ 63 /\ 1000 <= roundP2 1000 < 2 * 1000.
Proof.
  assert (H : 1 <= 1000 <= 2 ^ 63) by (split; vm_compute; congruence).
  split; [exact H|]. apply (roundP2_less_than_double 1000 H).
Defined.

(** X11: Up to [2^63], [roundP2] is monotone. *)
Theorem roundP2_monotone (v w : Z) :
  0 <= v <= w -> w <= 2 ^ 63 -> roundP2 v <= roundP2 w.
Proof.
  intros Hv Hw.
  destruct (Z.eq_dec v 0) as [->|Hne].
  - destruct (Z.eq_dec w 0) as [->|Hnw]; [reflexivity|].
    rewrite (roundP2_log2_up w) by lia.
    change (roundP2 0) with 0. apply Z.pow_nonneg. lia.
  - rewrite (roundP2_log2_up v), (roundP2_log2_up w) by lia.
    apply Z.pow_le_mono_r; [lia|]. apply Z.log2_up_le_mono. lia.
Qed.

Lemma roundP2_monotone_witness :
  0 <= 5 <= 17 /\ 17 <= 2 ^ 63 /\ roundP2 5 <= roundP2 17.
Proof.
  assert (H1 : 0 <= 5 <= 17) by lia.
  assert (H2 : 17 <= 2 ^ 63) by (vm_compute; congruence).
  split; [exact H1|]. split; [exact H2|].
  apply (roundP2_monotone 5 17 H1 H2).
Defined.

(** ** Slot atomics: further results *)

Lemma uintptr_mod_pos (A : arch) : 0 < uintptr_mod A.
Proof. destruct A; vm_compute; reflexivity. Qed.

(** The conversions inside the address computation collapse into one
    reduction modulo the width. *)
Lemma slot_address_mod (A : arch) (base index ptrsize : Z) :
  slot_address A base index ptrsize = (base + ptrsize * index) mod uintptr_mod A.
Proof.
  unfold slot_address, to_uintptr.
  pose proof (uintptr_mod_pos A) as Hm.
  rewrite Z.mul_mod_idemp_r by lia. now rewrite Z.add_mod_idemp_r by lia.
Qed.

(** X12: Within the address space the slots of a slice lie one after the other
    without overlap: slot [i] is at [base + ptrsize * i], and a slot of
    higher index starts at or after the end of a slot of lower index. *)
Theorem slot_address_in_order (A : arch) (base ptrsize i j : Z) :
  0 <= base -> 0 < ptrsize -> 0 <= i < j ->
  base + ptrsize * j < uintptr_mod A ->
  slot_address A base i ptrsize = base + ptrsize * i /\
  slot_address A base j ptrsize = base + ptrsize * j /\
  slot_address A base i ptrsize + ptrsize <= slot_address A base j ptrsize.
Proof.
  intros Hb Hp Hij Hfit.
  assert (Hi : 0 <= ptrsize * i) by nia.
  assert (Hlt : ptrsize * i + ptrsize <= ptrsize * j) by nia.
  rewrite !slot_address_mod, !Z.mod_small by lia. lia.
Qed.

Lemma slot_address_in_order_witness :
  0 <= 1000 /\ 0 < 8 /\ 0 <= 1 < 2 /\ 1000 + 8 * 2 < uintptr_mod Arch64 /\
  slot_address Arch64 1000 1 8 = 1000 + 8 * 1 /\
  slot_address Arch64 1000 2 8 = 1000 + 8 * 2 /\
  slot_address Arch64 1000 1 8 + 8 <= slot_address Arch64 1000 2 8.
Proof.
  assert (H1 : 0 <= 1000) by lia. assert (H2 : 0 < 8) by lia.
  assert (H3 : 0 <= 1 < 2) by lia.
  assert (H4 : 1000 + 8 * 2 < uintptr_mod Arch64) by (vm_compute; reflexivity).
  repeat (split; [assumption|]).
  apply (slot_address_in_order Arch64 1000 8 1 2 H1 H2 H3 H4).
Defined.

(** X13: No bounds are enforced: a negative index addresses the memory in front
    of the slice data, and an index beyond the address space wraps around. *)
Theorem slot_address_unchecked (A : arch) (base ptrsize k : Z) :
  0 <= k -> 0 <= ptrsize -> ptrsize * k <= base < uintptr_mod A ->
  slot_address A base (- k) ptrsize = base - ptrsize * k /\
  forall index,
    slot_address A base (index + uintptr_mod A) ptrsize =
    slot_address A base index ptrsize.
Proof.
  intros Hk Hp Hb. split.
  - rewrite slot_address_mod.
    replace (base + ptrsize * - k) with (base - ptrsize * k) by lia.
    apply Z.mod_small. nia.
  - intros index. rewrite !slot_address_mod.
    replace (base + ptrsize * (index + uintptr_mod A))
      with (base + ptrsize * index + ptrsize * uintptr_mod A) by lia.
    apply Z.mod_add. pose proof (uintptr_mod_pos A). lia.
Qed.

Lemma slot_address_unchecked_witness :
  0 <= 1 /\ 0 <= 8 /\ 8 * 1 <= 1000 < uintptr_mod Arch64 /\
  slot_address Arch64 1000 (- 1) 8 = 1000 - 8 * 1 /\
  forall index,
    slot_address Arch64 1000 (index + uintptr_mod Arch64) 8 =
    slot_address Arch64 1000 index 8.
Proof.
  assert (H1 : 0 <= 1) by lia. assert (H2 : 0 <= 8) by lia.
  assert (H3 : 8 * 1 <= 1000 < uintptr_mod Arch64)
    by (split; vm_compute; congruence).
  repeat (split; [assumption|]).
  apply (slot_address_unchecked Arch64 1000 8 1 H1 H2 H3).
Defined.

Lemma SetSliceSlot_eval (A : arch) (h : mem) (addr index ptrsize d base v : Z) :
  words h !! addr = Some base ->
  words h !! slot_address A base index ptrsize = Some v ->
  SetSliceSlot A addr index ptrsize d h =
    if v =? nil_ptr
    then Ok (true, set_word (slot_address A base index ptrsize) d h)
    else Ok (false, h).
Proof. intros Hb Hs. unfold SetSliceSlot. now apply CASSliceSlot_eval. Qed.

Lemma OffsetSliceSlot_eval (A : arch) (h : mem) (addr index ptrsize base : Z) :
  words h !! addr = Some base ->
  OffsetSliceSlot A addr index ptrsize h =
    Ok (slot_address A base index ptrsize, h).
Proof. intros Hb. unfold OffsetSliceSlot, bind, LoadPointer, ret. now rewrite Hb. Qed.

(** X14: A value claimed into an empty slot with [SetSliceSlot] is the value
    read back at the address [OffsetSliceSlot] gives for that index; the
    slot must not be the word that holds the slice's data pointer. *)
Theorem SetSliceSlot_then_read
    (A : arch) (h : mem) (addr index ptrsize d base : Z) :
  words h !! addr = Some base ->
  words h !! slot_address A base index ptrsize = Some nil_ptr ->
  slot_address A base index ptrsize <> addr ->
  (ok <- SetSliceSlot A addr index ptrsize d ;;
   p <- OffsetSliceSlot A addr index ptrsize ;;
   v <- LoadPointer p ;;
   ret (ok, p, v)) h =
  Ok ((true, slot_address A base index ptrsize, d),
      set_word (slot_address A base index ptrsize) d h).
Proof.
  intros Hb Hs Hne. unfold bind at 1.
  rewrite (SetSliceSlot_eval A h addr index ptrsize d base nil_ptr Hb Hs).
  rewrite Z.eqb_refl. unfold bind at 1.
  rewrite (OffsetSliceSlot_eval A _ addr index ptrsize base)
    by (rewrite words_set_word_ne by exact Hne; exact Hb).
  unfold bind, LoadPointer, ret. now rewrite words_set_word_eq.
Qed.

Lemma SetSliceSlot_then_read_witness :
  let h := mkMem (<[16 := 1000]> (<[1008 := 0]> ∅)) ∅ [] in
  (ok <- SetSliceSlot Arch64 16 1 8 5000 ;;
   p <- OffsetSliceSlot Arch64 16 1 8 ;;
   v <- LoadPointer p ;;
   ret (ok, p, v)) h =
  Ok ((true, slot_address Arch64 1000 1 8, 5000),
      set_word (slot_address Arch64 1000 1 8) 5000 h).
Proof.
  intros h.
  apply (SetSliceSlot_then_read Arch64 h 16 1 8 5000 1000);
    [reflexivity | reflexivity | discriminate].
Defined.

(** X15: A slot is claimed once: after a successful [SetSliceSlot] of a non-nil
    value, a second [SetSliceSlot] on the same slot returns false and the
    first value stays. *)
Theorem SetSliceSlot_claims_once
    (A : arch) (h : mem) (addr index ptrsize d d' base : Z) :
  words h !! addr = Some base ->
  words h !! slot_address A base index ptrsize = Some nil_ptr ->
  slot_address A base index ptrsize <> addr ->
  d <> nil_ptr ->
  (first <- SetSliceSlot A addr index ptrsize d ;;
   second <- SetSliceSlot A addr index ptrsize d' ;;
   ret (first, second)) h =
  Ok ((true, false), set_word (slot_address A base index ptrsize) d h).
Proof.
  intros Hb Hs Hne Hd. unfold bind at 1.
  rewrite (SetSliceSlot_eval A h addr index ptrsize d base nil_ptr Hb Hs).
  rewrite Z.eqb_refl. unfold bind.
  rewrite (SetSliceSlot_eval A _ addr index ptrsize d' base d).
  - apply Z.eqb_neq in Hd. now rewrite Hd.
  - rewrite words_set_word_ne by exact Hne. exact Hb.
  - apply words_set_word_eq.
Qed.

Lemma SetSliceSlot_claims_once_witness :
  let h := mkMem (<[16 := 1000]> (<[1008 := 0]> ∅)) ∅ [] in
  (first <- SetSliceSlot Arch64 16 1 8 5000 ;;
   second <- SetSliceSlot Arch64 16 1 8 6000 ;;
   ret (first, second)) h =
  Ok ((true, false), set_word (slot_address Arch64 1000 1 8) 5000 h).
Proof.
  intros h.
  apply (SetSliceSlot_claims_once Arch64 h 16 1 8 5000 6000 1000);
    [reflexivity | reflexivity | discriminate | discriminate].
Defined.

(** X16: Claims of different empty slots do not disturb each other: both
    succeed and each slot holds its own value. *)
Theorem SetSliceSlot_independent
    (A : arch) (h : mem) (addr i j ptrsize d e base : Z) :
  words h !! addr = Some base ->
  words h !! slot_address A base i ptrsize = Some nil_ptr ->
  words h !! slot_address A base j ptrsize = Some nil_ptr ->
  slot_address A base i ptrsize <> slot_address A base j ptrsize ->
  slot_address A base i ptrsize <> addr ->
  exists h',
    (first <- SetSliceSlot A addr i ptrsize d ;;
     second <- SetSliceSlot A addr j ptrsize e ;;
     ret (first, second)) h = Ok ((true, true), h') /\
    words h' !! slot_address A base i ptrsize = Some d /\
    words h' !! slot_address A base j ptrsize = Some e.
Proof.
  intros Hb Hi Hj Hij Hne. unfold bind at 1.
  rewrite (SetSliceSlot_eval A h addr i ptrsize d base nil_ptr Hb Hi).
  rewrite Z.eqb_refl. unfold bind.
  rewrite (SetSliceSlot_eval A _ addr j ptrsize e base nil_ptr).
  - rewrite Z.eqb_refl. eexists. split; [reflexivity|]. split.
    + rewrite words_set_word_ne by congruence. apply words_set_word_eq.
    + apply words_set_word_eq.
  - rewrite words_set_word_ne by exact Hne. exact Hb.
  - rewrite words_set_word_ne by exact Hij. exact Hj.
Qed.

Lemma SetSliceSlot_independent_witness :
  let h := mkMem (<[16 := 1000]> (<[1008 := 0]> (<[1016 := 0]> ∅))) ∅ [] in
  exists h',
    (first <- SetSliceSlot Arch64 16 1 8 5000 ;;
     second <- SetSliceSlot Arch64 16 2 8 6000 ;;
     ret (first, second)) h = Ok ((true, true), h') /\
    words h' !! slot_address Arch64 1000 1 8 = Some 5000 /\
    words h' !! slot_address Arch64 1000 2 8 = Some 6000.
Proof.
  intros h.
  apply (SetSliceSlot_independent Arch64 h 16 1 2 8 5000 6000 1000);
    [reflexivity | reflexivity | reflexivity | discriminate | discriminate].
Defined.

(** ** RDCSS: further results *)

(** A call of [RDCSS] on distinct mapped control and data words, step by
    step. *)
Lemma RDCSS_eval (A : arch) (h : mem) (d a1 o1 a2 o2 n v1 v2 : Z) :
  is_ptr A d -> aligned A d -> a1 <> a2 ->
  words h !! a1 = Some v1 -> words h !! a2 = Some v2 ->
  RDCSS A d a1 o1 a2 o2 n h =
    let h0 := set_desc d (mkDesc a1 o1 a2 o2 n) h in
    if v2 =? o2
    then if v1 =? o1
         then Ok (true, set_word a2 n (set_word a2 (Z.lor d 1) h0))
         else Ok (false, set_word a2 o2 (set_word a2 (Z.lor d 1) h0))
    else Ok (false, h0).
Proof.
  intros Hp Ha Hne H1 H2.
  rewrite RDCSS_stages, (RDCSS_install_eval A h d a1 o1 a2 o2 n v2 H2).
  cbv zeta. destruct (v2 =? o2); [|reflexivity].
  rewrite (RDCSSComplete_eval A _ d v1 (Z.lor d 1) (mkDesc a1 o1 a2 o2 n) Hp Ha).
  - rewrite Z.eqb_refl. simpl. destruct (v1 =? o1); reflexivity.
  - apply lookup_insert_eq.
  - simpl. rewrite lookup_insert_ne by congruence. exact H1.
  - simpl. apply lookup_insert_eq.
Qed.

(** X17: The footprint of a call of [RDCSS]: it returns true exactly when both
    comparisons hold; the data word ends with the new value when it
    returns true and with its initial value otherwise; no other word is
    written (the control word in particular), and nothing is logged. *)
Theorem RDCSS_footprint
    (A : arch) (h : mem) (d a1 o1 a2 o2 n v1 v2 : Z) :
  is_ptr A d -> aligned A d -> a1 <> a2 ->
  words h !! a1 = Some v1 -> words h !! a2 = Some v2 ->
  exists h',
    RDCSS A d a1 o1 a2 o2 n h = Ok ((v2 =? o2) && (v1 =? o1), h') /\
    words h' !! a2 = Some (if (v2 =? o2) && (v1 =? o1) then n else v2) /\
    (forall a, a <> a2 -> words h' !! a = words h !! a) /\
    logs h' = logs h.
Proof.
  intros Hp Ha Hne H1 H2.
  rewrite (RDCSS_eval A h d a1 o1 a2 o2 n v1 v2 Hp Ha Hne H1 H2). cbv zeta.
  destruct (Z.eqb_spec v2 o2) as [->|Hv2]; [destruct (v1 =? o1)|];
    cbn [andb]; eexists; (split; [reflexivity|]); cbn [words logs set_word set_desc].
  - split; [apply lookup_insert_eq|]. split; [|reflexivity].
    intros a Hn. now rewrite !lookup_insert_ne by congruence.
  - split; [apply lookup_insert_eq|]. split; [|reflexivity].
    intros a Hn. now rewrite !lookup_insert_ne by congruence.
  - split; [exact H2|]. split; reflexivity.
Qed.

Lemma RDCSS_footprint_witness :
  let h := mkMem (<[100 := 17]> (<[200 := 48]> ∅)) ∅ [] in
  exists h',
    RDCSS Arch64 4096 100 16 200 48 64 h = Ok ((48 =? 48) && (17 =? 16), h') /\
    words h' !! 200 = Some (if (48 =? 48) && (17 =? 16) then 64 else 48) /\
    (forall a, a <> 200 -> words h' !! a = words h !! a) /\
    logs h' = logs h.
Proof.
  intros h.
  apply (RDCSS_footprint Arch64 h 4096 100 16 200 48 64 17 48);
    [split; vm_compute; congruence | reflexivity | discriminate
    | reflexivity | reflexivity].
Defined.

(** X18: No descriptor is left behind: when neither the initial value of the
    data word nor the new value carries a tag, the value at the data
    address after the call is no RDCSS descriptor. *)
Theorem RDCSS_leaves_no_descriptor
    (A : arch) (h : mem) (d a1 o1 a2 o2 n v1 v2 : Z) :
  is_ptr A d -> aligned A d -> a1 <> a2 ->
  words h !! a1 = Some v1 -> words h !! a2 = Some v2 ->
  HasTag A v2 = false -> HasTag A n = false ->
  exists r h' w,
    RDCSS A d a1 o1 a2 o2 n h = Ok (r, h') /\
    words h' !! a2 = Some w /\ IsRDCSSDescriptor A w = false.
Proof.
  intros Hp Ha Hne H1 H2 Hv Hn.
  rewrite (RDCSS_eval A h d a1 o1 a2 o2 n v1 v2 Hp Ha Hne H1 H2). cbv zeta.
  destruct (Z.eqb_spec v2 o2) as [->|Hv2]; [destruct (v1 =? o1)|].
  - eexists _, _, n. split; [reflexivity|]. split; [apply lookup_insert_eq | exact Hn].
  - eexists _, _, o2. split; [reflexivity|]. split; [apply lookup_insert_eq | exact Hv].
  - eexists _, _, v2. split; [reflexivity|]. split; [exact H2 | exact Hv].
Qed.

Lemma RDCSS_leaves_no_descriptor_witness :
  let h := mkMem (<[100 := 16]> (<[200 := 48]> ∅)) ∅ [] in
  exists r h' w,
    RDCSS Arch64 4096 100 16 200 48 64 h = Ok (r, h') /\
    words h' !! 200 = Some w /\ IsRDCSSDescriptor Arch64 w = false.
Proof.
  intros h.
  apply (RDCSS_leaves_no_descriptor Arch64 h 4096 100 16 200 48 64 16 48);
    [split; vm_compute; congruence | reflexivity | discriminate
    | reflexivity | reflexivity | reflexivity | reflexivity].
Defined.

(** X19: When the control address is the data address, the install overwrites
    the control word with the tagged descriptor, so the call never commits:
    it returns false and every word holds its initial value afterwards. *)
Theorem RDCSS_same_address_never_commits
    (A : arch) (h : mem) (d a o1 o2 n v : Z) :
  is_ptr A d -> aligned A d ->
  words h !! a = Some v -> o1 <> Z.lor d 1 ->
  exists h',
    RDCSS A d a o1 a o2 n h = Ok (false, h') /\ words h' = words h.
Proof.
  intros Hp Ha Hv Hfresh.
  rewrite RDCSS_stages, (RDCSS_install_eval A h d a o1 a o2 n v Hv).
  destruct (Z.eqb_spec v o2) as [->|Hne].
  - rewrite (RDCSSComplete_eval A _ d (Z.lor d 1) (Z.lor d 1)
               (mkDesc a o1 a o2 n) Hp Ha);
      [| apply lookup_insert_eq | apply lookup_insert_eq | apply lookup_insert_eq].
    simpl. apply not_eq_sym, Z.eqb_neq in Hfresh. rewrite Hfresh, Z.eqb_refl. simpl.
    eexists. split; [reflexivity|]. simpl.
    rewrite insert_insert_eq. now apply insert_id.
  - eexists. split; reflexivity.
Qed.

Lemma RDCSS_same_address_never_commits_witness :
  let h := mkMem (<[200 := 48]> ∅) ∅ [] in
  exists h',
    RDCSS Arch64 4096 200 48 200 48 64 h = Ok (false, h') /\ words h' = words h.
Proof.
  intros h.
  apply (RDCSS_same_address_never_commits Arch64 h 4096 200 48 48 64 48);
    [split; vm_compute; congruence | reflexivity | reflexivity | discriminate].
Defined.

(** X20: Completing a descriptor that is no longer installed (the data address
    holds something else than its tagged address, as after a commit or a
    rollback) changes no word, returns false whatever the control word
    holds, and writes the restoration message to the log. *)
Theorem RDCSSComplete_not_installed
    (A : arch) (h : mem) (d c w : Z) (D : rdcssDescriptor) :
  is_ptr A d -> aligned A d ->
  descs h !! d = Some D ->
  words h !! a1 D = Some c -> words h !! a2 D = Some w ->
  w <> Z.lor d 1 ->
  exists h',
    RDCSSComplete A d h = Ok (false, h') /\
    words h' = words h /\
    logs h' = logs h ++ ["[-] restoration failed."%string].
Proof.
  intros Hp Ha HD Hc Hw Hne.
  rewrite (RDCSSComplete_eval A h d c w D Hp Ha HD Hc Hw).
  apply Z.eqb_neq in Hne. rewrite Hne, andb_false_r.
  eexists. split; [reflexivity|]. split; reflexivity.
Qed.

Lemma RDCSSComplete_not_installed_witness :
  let D := mkDesc 100 16 200 48 64 in
  let h := mkMem (<[100 := 16]> (<[200 := 64]> ∅)) (<[4096 := D]> ∅) [] in
  exists h',
    RDCSSComplete Arch64 4096 h = Ok (false, h') /\
    words h' = words h /\
    logs h' = logs h ++ ["[-] restoration failed."%string].
Proof.
  intros D h.
  apply (RDCSSComplete_not_installed Arch64 h 4096 16 64 D);
    [split; vm_compute; congruence | reflexivity | reflexivity
    | reflexivity | reflexivity | discriminate].
Defined.

(** X21: On a 64-bit machine [RDCSSComplete] may be handed the tagged pointer
    found at the data address: it strips the tag and behaves as on the
    descriptor's address, in every memory. *)
Theorem RDCSSComplete_tagged_argument_64 (h : mem) (d : Z) :
  RDCSSComplete Arch64 (Z.lor d 1) h = RDCSSComplete Arch64 d h.
Proof.
  unfold RDCSSComplete.
  rewrite !TaggedPointer_one, <- Z.lor_assoc. change (Z.lor 1 1) with 1.
  rewrite Untag_lor. change (Untag Arch64 1) with 0. rewrite Z.lor_0_r.
  reflexivity.
Qed.



(** X23: While a descriptor is installed the data word shows it: after the
    install stage has succeeded, the data word holds the descriptor's
    address tagged with 1, which [IsRDCSSDescriptor] recognises. *)
Theorem RDCSS_install_visible
    (A : arch) (h h1 : mem) (d a1 o1 a2 o2 n : Z) :
  aligned A d ->
  RDCSS_install A d a1 o1 a2 o2 n h = Ok (true, h1) ->
  words h1 !! a2 = Some (Z.lor d 1) /\
  GetTag A (Z.lor d 1) = 1 /\
  IsRDCSSDescriptor A (Z.lor d 1) = true /\
  descs h1 !! d = Some (mkDesc a1 o1 a2 o2 n).
Proof.
  intros Ha Hi.
  assert (Hg : GetTag A (Z.lor d 1) = 1).
  { rewrite GetTag_lor, GetTag_mod, Ha. destruct A; reflexivity. }
  assert (Hh : words h1 !! a2 = Some (Z.lor d 1) /\
               descs h1 !! d = Some (mkDesc a1 o1 a2 o2 n)).
  { destruct (words h !! a2) as [w|] eqn:E.
    - rewrite (RDCSS_install_eval A h d a1 o1 a2 o2 n w E) in Hi.
      destruct (w =? o2); inversion Hi; subst h1. split.
      + apply words_set_word_eq.
      + apply lookup_insert_eq.
    - unfold RDCSS_install, bind, new_descriptor, lift, deref in Hi.
      rewrite TaggedPointer_one in Hi. cbn [descs set_desc fst] in Hi.
      rewrite lookup_insert_eq in Hi. unfold CompareAndSwapPointer in Hi.
      change (words (set_desc d (mkDesc a1 o1 a2 o2 n) h)) with (words h) in Hi.
      rewrite E in Hi. discriminate. }
  destruct Hh as [HW HD].
  split; [exact HW|]. split; [exact Hg|]. split; [|exact HD].
  unfold IsRDCSSDescriptor, HasTag. rewrite Hg. destruct A; reflexivity.
Qed.

Lemma RDCSS_install_visible_witness :
  let h := mkMem (<[100 := 16]> (<[200 := 48]> ∅)) ∅ [] in
  let h1 := set_word 200 4097 (set_desc 4096 (mkDesc 100 16 200 48 64) h) in
  words h1 !! 200 = Some (Z.lor 4096 1) /\
  GetTag Arch64 (Z.lor 4096 1) = 1 /\
  IsRDCSSDescriptor Arch64 (Z.lor 4096 1) = true /\
  descs h1 !! 4096 = Some (mkDesc 100 16 200 48 64).
Proof.
  intros h h1.
  apply (RDCSS_install_visible Arch64 h h1 4096 100 16 200 48 64);
    reflexivity.
Defined.

(** X24: Helping: once a descriptor is installed and the control word holds the
    expected value, a first completion (by any thread) commits and returns
    true; the completion the installing call then runs itself finds the
    descriptor gone, returns false and logs the restoration message,
    although the new value stays at the data address. *)
Theorem RDCSSComplete_twice
    (A : arch) (h : mem) (d a1 o1 a2 o2 n : Z) :
  is_ptr A d -> aligned A d -> a1 <> a2 ->
  words h !! a1 = Some o1 -> words h !! a2 = Some o2 ->
  n <> Z.lor d 1 ->
  exists h',
    (installed <- RDCSS_install A d a1 o1 a2 o2 n ;;
     helper <- RDCSSComplete A d ;;
     owner <- RDCSSComplete A d ;;
     ret (installed, helper, owner)) h = Ok ((true, true, false), h') /\
    words h' !! a2 = Some n /\
    logs h' = logs h ++ ["[-] restoration failed."%string].
Proof.
  intros Hp Ha Hne H1 H2 Hn. unfold bind at 1.
  rewrite (RDCSS_install_eval A h d a1 o1 a2 o2 n o2 H2), Z.eqb_refl.
  unfold bind at 1.
  rewrite (RDCSSComplete_eval A _ d o1 (Z.lor d 1) (mkDesc a1 o1 a2 o2 n) Hp Ha);
    [| apply lookup_insert_eq
     | simpl; rewrite lookup_insert_ne by congruence; exact H1
     | simpl; apply lookup_insert_eq].
  simpl. rewrite !Z.eqb_refl. simpl. unfold bind.
  rewrite (RDCSSComplete_eval A _ d o1 n (mkDesc a1 o1 a2 o2 n) Hp Ha);
    [| apply lookup_insert_eq
     | simpl; rewrite !lookup_insert_ne by congruence; exact H1
     | simpl; apply lookup_insert_eq].
  apply Z.eqb_neq in Hn. simpl. rewrite Hn, andb_false_r.
  eexists. split; [reflexivity|]. split; [apply lookup_insert_eq | reflexivity].
Qed.

Lemma RDCSSComplete_twice_witness :
  let h := mkMem (<[100 := 16]> (<[200 := 48]> ∅)) ∅ [] in
  exists h',
    (installed <- RDCSS_install Arch64 4096 100 16 200 48 64 ;;
     helper <- RDCSSComplete Arch64 4096 ;;
     owner <- RDCSSComplete Arch64 4096 ;;
     ret (installed, helper, owner)) h = Ok ((true, true, false), h') /\
    words h' !! 200 = Some 64 /\
    logs h' = logs h ++ ["[-] restoration failed."%string].
Proof.
  intros h.
  apply (RDCSSComplete_twice Arch64 h 4096 100 16 200 48 64);
    [split; vm_compute; congruence | reflexivity | discriminate
    | reflexivity | reflexivity | discriminate].
Defined.

(** X25: A value claimed into a slot with [SetSliceSlot] can be exchanged by an
    [RDCSS] on the slot's address, guarded by a control word that holds the
    expected value: both calls succeed and the slot holds the new value. *)
Theorem SetSliceSlot_then_RDCSS
    (A : arch) (h : mem) (addr index ptrsize base s n d a1 o1 : Z) :
  is_ptr A d -> aligned A d ->
  words h !! addr = Some base ->
  words h !! slot_address A base index ptrsize = Some nil_ptr ->
  slot_address A base index ptrsize <> addr ->
  a1 <> slot_address A base index ptrsize ->
  words h !! a1 = Some o1 ->
  exists h',
    (claimed <- SetSliceSlot A addr index ptrsize s ;;
     slotptr <- OffsetSliceSlot A addr index ptrsize ;;
     swapped <- RDCSS A d a1 o1 slotptr s n ;;
     ret (claimed, swapped)) h = Ok ((true, true), h') /\
    words h' !! slot_address A base index ptrsize = Some n.
Proof.
  intros Hp Ha Hb Hs Hne Hc H1. unfold bind at 1.
  rewrite (SetSliceSlot_eval A h addr index ptrsize s base nil_ptr Hb Hs).
  rewrite Z.eqb_refl. unfold bind at 1.
  rewrite (OffsetSliceSlot_eval A _ addr index ptrsize base)
    by (rewrite words_set_word_ne by exact Hne; exact Hb).
  unfold bind.
  rewrite (RDCSS_eval A _ d a1 o1 _ s n o1 s Hp Ha Hc).
  - cbv zeta. rewrite !Z.eqb_refl. eexists. split; [reflexivity|].
    apply words_set_word_eq.
  - rewrite words_set_word_ne by congruence. exact H1.
  - apply words_set_word_eq.
Qed.

Lemma SetSliceSlot_then_RDCSS_witness :
  let h := mkMem (<[16 := 1000]> (<[1008 := 0]> (<[24 := 3]> ∅))) ∅ [] in
  exists h',
    (claimed <- SetSliceSlot Arch64 16 1 8 5000 ;;
     slotptr <- OffsetSliceSlot Arch64 16 1 8 ;;
     swapped <- RDCSS Arch64 4096 24 3 slotptr 5000 6000 ;;
     ret (claimed, swapped)) h = Ok ((true, true), h') /\
    words h' !! slot_address Arch64 1000 1 8 = Some 6000.
Proof.
  intros h.
  apply (SetSliceSlot_then_RDCSS Arch64 h 16 1 8 1000 5000 6000 4096 24 3);
    [split; vm_compute; congruence | reflexivity | reflexivity | reflexivity
    | discriminate | discriminate | reflexivity].
Defined.

(** ** RDCSS: a race under a stale control value *)

Lemma step_rollback_eval (A : arch) (d w : Z) (D : rdcssDescriptor) (h : mem) :
  is_ptr A d -> aligned A d ->
  descs h !! d = Some D -> words h !! a2 D = Some w ->
  thread_step A (mkThread d D PRollback) h =
    if w =? Z.lor d 1
    then Ok (mkThread d D (PDone false), set_word (a2 D) (o2 D) h)
    else Ok (mkThread d D (PDone false), add_log "[-] restoration failed." h).
Proof.
  intros Hp Ha HD Hw.
  unfold thread_step, bind, lift, deref, ret, at_pc, Println.
  cbn [t_pc t_args t_desc].
  rewrite TaggedPointer_one, (Untag_aligned A d Hp Ha), HD. cbn [fst].
  rewrite (CompareAndSwapPointer_eval _ _ _ w h Hw).
  destruct (w =? Z.lor d 1); reflexivity.
Qed.

Section StaleRace.

Variable A : arch.
Variable c : Z.

(** The call that installed reads the control word, finds it changed and
    restores the data word. *)
Lemma stale_leader_step (d : Z) (D : rdcssDescriptor) (p q : pc) (h : mem) :
  is_ptr A d -> aligned A d -> a1 D <> a2 D ->
  words h !! a1 D = Some c -> c <> o1 D ->
  stale_busy d D p q h ->
  exists p' h',
    thread_step A (mkThread d D p) h = Ok (mkThread d D p', h') /\
    words h' !! a1 D = Some c /\ logs h' = logs h /\
    (stale_busy d D p' q h' \/
     (p' = PDone false /\ words h' !! a2 D = Some (o2 D))) /\
    (remaining p' <= remaining p - 1)%nat.
Proof.
  intros Hp Ha Hne Hc Hstale (Hq & Hpc & HD & HW).
  destruct Hpc as [-> | ->].
  - exists PRollback, h.
    rewrite (step_read_eval A d c D h Hp Ha HD Hc).
    apply Z.eqb_neq in Hstale. rewrite Hstale.
    split; [reflexivity|]. split; [exact Hc|]. split; [reflexivity|].
    split; [|simpl; lia].
    left. split; [exact Hq|]. split; [right; reflexivity|]. split; assumption.
  - exists (PDone false), (set_word (a2 D) (o2 D) h).
    rewrite (step_rollback_eval A d (Z.lor d 1) D h Hp Ha HD HW), Z.eqb_refl.
    split; [reflexivity|]. split.
    { rewrite words_set_word_ne by congruence. exact Hc. }
    split; [reflexivity|]. split; [|simpl; lia].
    right. split; [reflexivity | apply words_set_word_eq].
Qed.

(** The other call finds the data address taken and aborts. *)
Lemma stale_follower_step (d e : Z) (D E : rdcssDescriptor) (p q : pc) (h : mem) :
  d <> e -> a2 E = a2 D -> o2 E <> Z.lor d 1 ->
  stale_busy d D p q h ->
  exists q' h',
    thread_step A (mkThread e E q) h = Ok (mkThread e E q', h') /\
    words h' = words h /\ logs h' = logs h /\
    stale_busy d D p q' h' /\
    (remaining q' <= remaining q - 1)%nat.
Proof.
  intros Hde Ha2 Hf (Hq & Hpc & HD & HW).
  destruct Hq as [-> | ->].
  - exists (PDone false), (set_desc e E h).
    assert (Hw : words h !! a2 E = Some (Z.lor d 1)) by (now rewrite Ha2).
    rewrite (step_install_eval A e (Z.lor d 1) E h Hw).
    apply not_eq_sym, Z.eqb_neq in Hf. rewrite Hf.
    split; [reflexivity|]. split; [reflexivity|]. split; [reflexivity|].
    split; [|simpl; lia].
    split; [right; reflexivity|]. split; [exact Hpc|]. split; [|exact HW].
    cbn [descs set_desc]. rewrite lookup_insert_ne by congruence. exact HD.
  - exists (PDone false), h.
    split; [reflexivity|]. split; [reflexivity|]. split; [reflexivity|].
    split; [|simpl; lia].
    split; [right; reflexivity|]. split; [exact Hpc|]. split; assumption.
Qed.

(** With no descriptor installed, a call that has not started installs
    and a call that has returned stays. *)
Lemma stale_idle_step (d : Z) (D : rdcssDescriptor) (p : pc) (h : mem) :
  a1 D <> a2 D -> words h !! a2 D = Some (o2 D) ->
  p = PInstall \/ p = PDone false ->
  exists p' h',
    thread_step A (mkThread d D p) h = Ok (mkThread d D p', h') /\
    words h' !! a1 D = words h !! a1 D /\ logs h' = logs h /\
    ((p' = PReadControl /\ descs h' !! d = Some D /\
      words h' !! a2 D = Some (Z.lor d 1)) \/
     (p' = PDone false /\ words h' = words h)) /\
    (remaining p' <= remaining p - 1)%nat.
Proof.
  intros Hne Hw [-> | ->].
  - exists PReadControl, (set_word (a2 D) (Z.lor d 1) (set_desc d D h)).
    rewrite (step_install_eval A d (o2 D) D h Hw), Z.eqb_refl.
    split; [reflexivity|]. split.
    { cbn [words set_word set_desc]. apply lookup_insert_ne. congruence. }
    split; [reflexivity|]. split; [|simpl; lia].
    left. split; [reflexivity|]. split; [apply lookup_insert_eq|].
    apply words_set_word_eq.
  - exists (PDone false), h.
    split; [reflexivity|]. split; [reflexivity|]. split; [reflexivity|].
    split; [|simpl; lia]. right. split; reflexivity.
Qed.

Variables d1 d2 : Z.
Variables D1 D2 : rdcssDescriptor.
Variable L : list string.

Hypothesis Hptr1 : is_ptr A d1.
Hypothesis Hali1 : aligned A d1.
Hypothesis Hptr2 : is_ptr A d2.
Hypothesis Hali2 : aligned A d2.
Hypothesis Hdesc : d1 <> d2.
Hypothesis Hca1 : a1 D2 = a1 D1.
Hypothesis Hco1 : o1 D2 = o1 D1.
Hypothesis Hca2 : a2 D2 = a2 D1.
Hypothesis Hco2 : o2 D2 = o2 D1.
Hypothesis Hdist : a1 D1 <> a2 D1.
Hypothesis Hfresh1 : o2 D1 <> Z.lor d1 1.
Hypothesis Hfresh2 : o2 D2 <> Z.lor d2 1.
Hypothesis Hstale : c <> o1 D1.

Lemma stale_sys_step_inv (i : tid) (s : thread * thread) (h : mem) :
  stale_inv d1 d2 D1 D2 c L s h ->
  exists s' h',
    sys_step A i s h = Ok (s', h') /\
    stale_inv d1 d2 D1 D2 c L s' h' /\
    (remaining (t_pc (fst s')) <= remaining (t_pc (fst s)) - steps_of T1 [i])%nat /\
    (remaining (t_pc (snd s')) <= remaining (t_pc (snd s)) - steps_of T2 [i])%nat.
Proof.
  destruct s as [[d D p] [e E q]]. unfold stale_inv.
  cbn [fst snd t_desc t_args t_pc].
  intros (-> & -> & -> & -> & Hc & HL & Hcases).
  assert (Hc2 : words h !! a1 D2 = Some c) by (now rewrite Hca1).
  assert (Hdist2 : a1 D2 <> a2 D2) by congruence.
  assert (Hstale2 : c <> o1 D2) by congruence.
  destruct i; unfold sys_step, bind; cbn [fst snd steps_of].
  - destruct Hcases as [(Hp & Hq & Hw) | [Hbusy | Hbusy]].
    + destruct (stale_idle_step d1 D1 p h Hdist Hw Hp)
        as (p' & h' & -> & Hc' & HL' & Hnext & Hrem).
      eexists _, h'. split; [reflexivity|]. cbn [fst snd t_desc t_args t_pc].
      split; [|split; [exact Hrem | lia]].
      repeat (split; [reflexivity|]).
      split; [now rewrite Hc'|]. split; [now rewrite HL'|].
      destruct Hnext as [(-> & HD & HW) | (-> & Hsame)].
      * right; left. split; [exact Hq|]. split; [left; reflexivity|]. split; assumption.
      * left. split; [right; reflexivity|]. split; [exact Hq|]. now rewrite Hsame.
    + destruct (stale_leader_step d1 D1 p q h Hptr1 Hali1 Hdist Hc Hstale Hbusy)
        as (p' & h' & -> & Hc' & HL' & Hnext & Hrem).
      eexists _, h'. split; [reflexivity|]. cbn [fst snd t_desc t_args t_pc].
      split; [|split; [exact Hrem | lia]].
      repeat (split; [reflexivity|]).
      split; [exact Hc'|]. split; [now rewrite HL'|].
      destruct Hnext as [Hb | (-> & HW)].
      * right; left. exact Hb.
      * left. split; [right; reflexivity|]. split; [apply Hbusy | exact HW].
    + destruct (stale_follower_step d2 d1 D2 D1 q p h)
        as (p' & h' & -> & Hw' & HL' & Hb & Hrem);
        [congruence | congruence | congruence | exact Hbusy |].
      eexists _, h'. split; [reflexivity|]. cbn [fst snd t_desc t_args t_pc].
      split; [|split; [exact Hrem | lia]].
      repeat (split; [reflexivity|]).
      split; [now rewrite Hw'|]. split; [now rewrite HL'|].
      right; right. exact Hb.
  - destruct Hcases as [(Hp & Hq & Hw) | [Hbusy | Hbusy]].
    + assert (Hw2 : words h !! a2 D2 = Some (o2 D2)) by (now rewrite Hca2, Hco2).
      destruct (stale_idle_step d2 D2 q h Hdist2 Hw2 Hq)
        as (q' & h' & -> & Hc' & HL' & Hnext & Hrem).
      eexists _, h'. split; [reflexivity|]. cbn [fst snd t_desc t_args t_pc].
      split; [|split; [lia | exact Hrem]].
      repeat (split; [reflexivity|]).
      split; [now rewrite <- Hca1, Hc'|]. split; [now rewrite HL'|].
      destruct Hnext as [(-> & HD & HW) | (-> & Hsame)].
      * right; right. split; [exact Hp|]. split; [left; reflexivity|]. split; assumption.
      * left. split; [exact Hp|]. split; [right; reflexivity|]. now rewrite Hsame.
    + destruct (stale_follower_step d1 d2 D1 D2 p q h)
        as (q' & h' & -> & Hw' & HL' & Hb & Hrem);
        [congruence | congruence | congruence | exact Hbusy |].
      eexists _, h'. split; [reflexivity|]. cbn [fst snd t_desc t_args t_pc].
      split; [|split; [lia | exact Hrem]].
      repeat (split; [reflexivity|]).
      split; [now rewrite Hw'|]. split; [now rewrite HL'|].
      right; left. exact Hb.
    + destruct (stale_leader_step d2 D2 q p h Hptr2 Hali2 Hdist2 Hc2 Hstale2 Hbusy)
        as (q' & h' & -> & Hc' & HL' & Hnext & Hrem).
      eexists _, h'. split; [reflexivity|]. cbn [fst snd t_desc t_args t_pc].
      split; [|split; [lia | exact Hrem]].
      repeat (split; [reflexivity|]).
      split; [now rewrite <- Hca1|]. split; [now rewrite HL'|].
      destruct Hnext as [Hb | (-> & HW)].
      * right; right. exact Hb.
      * left. split; [apply Hbusy|]. split; [right; reflexivity|].
        now rewrite <- Hca2, <- Hco2.
Qed.

Lemma stale_run_inv (sched : list tid) :
  forall (s : thread * thread) (h : mem),
    stale_inv d1 d2 D1 D2 c L s h ->
    exists s' h',
      run A sched s h = Ok (s', h') /\
      stale_inv d1 d2 D1 D2 c L s' h' /\
      (remaining (t_pc (fst s')) <= remaining (t_pc (fst s)) - steps_of T1 sched)%nat /\
      (remaining (t_pc (snd s')) <= remaining (t_pc (snd s)) - steps_of T2 sched)%nat.
Proof.
  induction sched as [|i rest IH]; intros s h Hinv.
  - exists s, h. split; [reflexivity|]. split; [exact Hinv|]. simpl. lia.
  - destruct (stale_sys_step_inv i s h Hinv) as (s1 & h1 & Hstep & Hinv1 & Hr1 & Hr2).
    destruct (IH s1 h1 Hinv1) as (s' & h' & Hrun & Hinv' & Hr1' & Hr2').
    exists s', h'. split.
    + cbn [run]. unfold bind. rewrite Hstep. exact Hrun.
    + split; [exact Hinv'|]. rewrite !(steps_of_cons _ i rest). lia.
Qed.

Lemma stale_inv_never_committed (s : thread * thread) (h : mem) :
  stale_inv d1 d2 D1 D2 c L s h ->
  t_pc (fst s) <> PDone true /\ t_pc (snd s) <> PDone true.
Proof.
  intros (_ & _ & _ & _ & _ & _ & Hcases).
  destruct Hcases as [(Hp & Hq & _) | [(Hq & Hp & _) | (Hp & Hq & _)]];
    split; intros E; rewrite E in *;
    repeat match goal with H : _ \/ _ |- _ => destruct H end; discriminate.
Qed.

Lemma stale_inv_final (s : thread * thread) (h : mem) :
  stale_inv d1 d2 D1 D2 c L s h ->
  finished (fst s) -> finished (snd s) ->
  words h !! a2 D1 = Some (o2 D1) /\ logs h = L.
Proof.
  intros (_ & _ & _ & _ & _ & HL & Hcases) [r1 E1] [r2 E2].
  rewrite E1, E2 in Hcases.
  destruct Hcases as [(_ & _ & Hw) | [(_ & Hp & _) | (_ & Hp & _)]].
  - split; assumption.
  - destruct Hp; discriminate.
  - destruct Hp; discriminate.
Qed.

End StaleRace.

(** X26: When the control word does not hold the expected value, a race between
    two calls of [RDCSS] on the same addresses runs without a fault under
    every schedule and neither call ever commits; once both have returned
    the data word holds its expected old value again and nothing has been
    logged; both have returned as soon as each has been scheduled three
    times. *)
Theorem RDCSS_race_stale_control
    (A : arch) (h : mem) (s : thread * thread) (c : Z) (sched : list tid) :
  stale_setup A h s c ->
  exists s' h',
    run A sched s h = Ok (s', h') /\
    t_pc (fst s') <> PDone true /\ t_pc (snd s') <> PDone true /\
    (finished (fst s') -> finished (snd s') ->
     words h' !! a2 (t_args (fst s)) = Some (o2 (t_args (fst s))) /\
     logs h' = logs h) /\
    ((3 <= steps_of T1 sched)%nat -> (3 <= steps_of T2 sched)%nat ->
     finished (fst s') /\ finished (snd s')).
Proof.
  intros (Hpc1 & Hpc2 & Ha1 & Ho1 & Ha2 & Ho2 & Hc & Hstale & Hw & Hdist
          & (Hp1 & Hal1 & Hfr1) & (Hp2 & Hal2 & Hfr2) & Hdesc).
  assert (Hinv : stale_inv (t_desc (fst s)) (t_desc (snd s))
                   (t_args (fst s)) (t_args (snd s)) c (logs h) s h).
  { unfold stale_inv. repeat (split; [reflexivity|]). split; [exact Hc|].
    split; [reflexivity|]. left.
    split; [left; exact Hpc1|]. split; [left; exact Hpc2 | exact Hw]. }
  destruct (stale_run_inv A c _ _ _ _ (logs h) Hp1 Hal1 Hp2 Hal2 Hdesc
              (eq_sym Ha1) (eq_sym Ho1) (eq_sym Ha2) (eq_sym Ho2)
              Hdist Hfr1 Hfr2 Hstale sched s h Hinv)
    as (s1 & h1 & Hrun & Hinv1 & Hr1 & Hr2).
  exists s1, h1. split; [exact Hrun|].
  destruct (stale_inv_never_committed _ _ _ _ _ _ s1 h1 Hinv1) as [Hn1 Hn2].
  split; [exact Hn1|]. split; [exact Hn2|]. split.
  - apply (stale_inv_final _ _ _ _ _ _ s1 h1 Hinv1).
  - intros H1 H2. rewrite Hpc1 in Hr1. rewrite Hpc2 in Hr2. simpl in Hr1, Hr2.
    split; apply remaining_0_finished; lia.
Qed.

Lemma RDCSS_race_stale_control_witness :
  let h := mkMem (<[100 := 17]> (<[200 := 48]> ∅)) ∅ [] in
  let s := (mkThread 4096 (mkDesc 100 16 200 48 64) PInstall,
            mkThread 8192 (mkDesc 100 16 200 48 80) PInstall) in
  let sched := [T1; T1; T1; T2; T2; T2] in
  stale_setup Arch64 h s 17 /\
  exists s' h',
    run Arch64 sched s h = Ok (s', h') /\
    t_pc (fst s') <> PDone true /\ t_pc (snd s') <> PDone true /\
    (finished (fst s') -> finished (snd s') ->
     words h' !! a2 (t_args (fst s)) = Some (o2 (t_args (fst s))) /\
     logs h' = logs h) /\
    ((3 <= steps_of T1 sched)%nat -> (3 <= steps_of T2 sched)%nat ->
     finished (fst s') /\ finished (snd s')).
Proof.
  intros h s sched.
  assert (Hsetup : stale_setup Arch64 h s 17).
  { unfold stale_setup, fresh_descriptor, is_ptr, aligned. subst h s.
    cbn [fst snd t_pc t_args t_desc a1 o1 a2 o2 n words].
    repeat split; try reflexivity; discriminate. }
  split; [exact Hsetup|].
  apply (RDCSS_race_stale_control Arch64 h s 17 sched Hsetup).
Defined.
